(** * LinkedBoard Pro: the connection-network visualization widget

    A shallow embedding of
    [src/pages/connection-network-tree/components/NetworkVisualization.jsx].

    JavaScript numbers are modelled by the real numbers of the Standard
    Library: arithmetic is exact, rounding of IEEE doubles is not modelled.
    [Math.random] is modelled by an explicit source of draws that is threaded
    through the code that calls it.  Ids are strings.  The [Map] built by the
    layout is a [gmap] keyed by strings ([Map.get] is the only way the
    component reads it, so insertion order is immaterial).  The [useState]
    cells are one record; every handler is a transition on it that sees the
    state left by the previous one. *)

From Stdlib Require Import Reals Lra.
From stdpp Require Import gmap strings list fin_maps.

#[local] Open Scope R_scope.
#[local] Open Scope string_scope.

(** ** Data passed in as props *)

Module Point.
Record t : Type := mk { x : R; y : R }.
End Point.

(** An entry of [connection.mutualConnections]. *)
Module Mutual.
Record t : Type := mk { id : string; name : string }.
End Mutual.

(** An entry of the [connections] prop.  [interactions] and
    [mutualConnections] may be missing ([undefined]). *)
Module Connection.
Record t : Type := mk {
    id : string;
    name : string;
    interactions : option R;
    mutualConnections : option (list Mutual.t)
  }.
End Connection.

(** ** [Array.prototype.forEach], with the index passed to the callback *)

Fixpoint forEach_from {A State : Type} (f : A → nat → State → State)
    (index : nat) (l : list A) (s : State) : State :=
  match l with
  | [] => s
  | a :: l' => forEach_from f (S index) l' (f a index s)
  end.

Definition forEach {A State : Type} (f : A → nat → State → State)
    (l : list A) (s : State) : State :=
  forEach_from f 0 l s.

(** ** [Math.random]: a source of draws, consumed one at a time *)

Definition RandomSource : Type := nat → R.

Definition Math_random (rnd : RandomSource) : R * RandomSource :=
  (rnd 0%nat, λ k, rnd (S k)).

(** ** Layout *)

Definition centerX : R := 400.
Definition centerY : R := 300.

(** The key of a secondary node: the template string
    [`${connection.id}-${mutual.id}`]. *)
Definition mutualKey (connection : Connection.t) (mutual : Mutual.t) : string :=
  Connection.id connection ++ "-" ++ Mutual.id mutual.

(** [connection.mutualConnections?.forEach(...)] of the tree branch. *)
Definition placeMutuals (connection : Connection.t) (angle : R)
    (positions : gmap string Point.t) : gmap string Point.t :=
  match Connection.mutualConnections connection with
  | None => positions
  | Some mutuals =>
      forEach (λ mutual mIndex positions,
        let subAngle := angle + (INR mIndex - 1) * 0.3 in
        let subRadius := 250 in
        <[mutualKey connection mutual :=
            Point.mk (centerX + cos subAngle * subRadius)
                     (centerY + sin subAngle * subRadius)]> positions)
        mutuals positions
  end.

(** The callback of the force-directed branch: two draws per connection,
    the first for the angle, the second for the radius. *)
Definition forcePlace (connection : Connection.t) (index : nat)
    (st : gmap string Point.t * RandomSource)
    : gmap string Point.t * RandomSource :=
  let '(positions, rnd) := st in
  let '(r1, rnd) := Math_random rnd in
  let angle := r1 * 2 * PI in
  let '(r2, rnd) := Math_random rnd in
  let radius := 100 + r2 * 150 in
  (<[Connection.id connection :=
       Point.mk (centerX + cos angle * radius)
                (centerY + sin angle * radius)]> positions, rnd).

(** [calculateNodePositions] reads [viewMode] and [connections] from the
    props and calls [Math.random] in its last branch only; it returns the
    positions map and what is left of the random source. *)
Definition calculateNodePositions (viewMode : string)
    (connections : list Connection.t) (rnd : RandomSource)
    : gmap string Point.t * RandomSource :=
  let positions : gmap string Point.t :=
    <["user" := Point.mk centerX centerY]> ∅ in
  if String.eqb viewMode "tree" then
    (forEach (λ connection index positions,
       let angle := INR index / INR (length connections) * 2 * PI in
       let radius := 150 in
       let positions :=
         <[Connection.id connection :=
             Point.mk (centerX + cos angle * radius)
                      (centerY + sin angle * radius)]> positions in
       placeMutuals connection angle positions)
       connections positions, rnd)
  else if String.eqb viewMode "circular" then
    (forEach (λ connection index positions,
       let angle := INR index / INR (length connections) * 2 * PI in
       let radius := 200 in
       <[Connection.id connection :=
           Point.mk (centerX + cos angle * radius)
                    (centerY + sin angle * radius)]> positions)
       connections positions, rnd)
  else
    forEach forcePlace connections (positions, rnd).

(** ** Local UI state: the five [useState] cells of the component *)

Record UIState : Type := mkUIState {
  zoom : R;
  pan : Point.t;
  isDragging : bool;
  dragStart : Point.t;
  hoveredConnection : option string
}.

Definition initialState : UIState :=
  mkUIState 1 (Point.mk 0 0) false (Point.mk 0 0) None.

(** The part of a DOM mouse event the handlers read. *)
Record MouseEvent : Type := mkMouseEvent { clientX : R; clientY : R }.

(** The objects handed to [onNodeSelect]: a connection of the props, one of
    its mutual connections, or an object literal. *)
Inductive Node : Type :=
  | ConnectionObj (connection : Connection.t)
  | MutualObj (mutual : Mutual.t)
  | ObjectLiteral (id name : string).

(** What leaves the component. *)
Inductive Effect : Type :=
  | onNodeSelect (node : Node)
  | onViewModeChange (value : string)
  | console_log (message : string).

(** ** Event handlers *)

Definition handleMouseDown (e : MouseEvent) (st : UIState) : UIState :=
  mkUIState (zoom st) (pan st) true
    (Point.mk (clientX e - Point.x (pan st)) (clientY e - Point.y (pan st)))
    (hoveredConnection st).

Definition handleMouseMove (e : MouseEvent) (st : UIState) : UIState :=
  if isDragging st then
    mkUIState (zoom st)
      (Point.mk (clientX e - Point.x (dragStart st))
                (clientY e - Point.y (dragStart st)))
      (isDragging st) (dragStart st) (hoveredConnection st)
  else st.

Definition handleMouseUp (st : UIState) : UIState :=
  mkUIState (zoom st) (pan st) false (dragStart st) (hoveredConnection st).

Definition handleZoom (direction : string) (st : UIState) : UIState :=
  let newZoom :=
    if String.eqb direction "in" then Rmin (zoom st * 1.2) 3
    else Rmax (zoom st / 1.2) 0.3 in
  mkUIState newZoom (pan st) (isDragging st) (dragStart st)
    (hoveredConnection st).

Definition handleNodeClick (node : Node) : list Effect :=
  [onNodeSelect node].

Definition handleConnectionHover (connectionId : option string)
    (st : UIState) : UIState :=
  mkUIState (zoom st) (pan st) (isDragging st) (dragStart st) connectionId.

Definition resetView (st : UIState) : UIState :=
  mkUIState 1 (Point.mk 0 0) (isDragging st) (dragStart st)
    (hoveredConnection st).

(** [connection.interactions || 0]: a missing field and the falsy number 0
    both give 0. *)
Definition interactions_or_0 (connection : Connection.t) : R :=
  match Connection.interactions connection with
  | Some v => if Req_dec_T v 0 then 0 else v
  | None => 0
  end.

Definition getConnectionStrength (connection : Connection.t) : string :=
  let interactions := interactions_or_0 connection in
  if Rlt_dec 50 interactions then "strong"
  else if Rlt_dec 20 interactions then "medium"
  else "weak".

Definition getNodeColor (connection : Connection.t) : string :=
  let strength := getConnectionStrength connection in
  if String.eqb strength "strong" then "#0A66C2"
  else if String.eqb strength "medium" then "#42B883"
  else "#65676B".

(** The three labels of the rendered legend, top to bottom. *)
Definition legend : list string :=
  [ "Strong (50+ interactions)";
    "Medium (20-50 interactions)";
    "Weak (<20 interactions)" ].

(** ** The listeners registered on the [svg] element by [useEffect] *)

Inductive SvgEvent : Type :=
  | mousedown (e : MouseEvent)
  | mousemove (e : MouseEvent)
  | mouseup
  | mouseleave.

Definition svgListener (ev : SvgEvent) (st : UIState) : UIState :=
  match ev with
  | mousedown e => handleMouseDown e st
  | mousemove e => handleMouseMove e st
  | mouseup => handleMouseUp st
  | mouseleave => handleMouseUp st
  end.

Definition svgListeners (evs : list SvgEvent) (st : UIState) : UIState :=
  foldl (λ st ev, svgListener ev st) st evs.

(** ** Rendering *)

(** The props the logic reads.  [selectedNode], [filters] and [className] are
    accepted by the component but read by none of the code modelled here; the
    callbacks [onNodeSelect] and [onViewModeChange] appear as [Effect]s. *)
Record Props : Type := mkProps {
  connections : list Connection.t;
  viewMode : string
}.

(** [viewModes]: value, label, icon. *)
Definition viewModes : list (string * string * string) :=
  [ ("tree", "Tree View", "GitBranch");
    ("force", "Force Graph", "Zap");
    ("circular", "Circular", "Circle") ].

(** The elements of the rendered tree that the claims speak about, each named
    after the data it was created from. *)
Inductive Element : Type :=
  | ViewModeButton (value : string)
  | ZoomInButton
  | ZoomOutButton
  | ResetButton
  | CentralCircle
  | CentralText
  | ConnectionCircle (connection : Connection.t)
  | ConnectionText (connection : Connection.t)
  | StrengthIndicator (connection : Connection.t)
  | MutualCircle (connection : Connection.t) (mutual : Mutual.t)
  | MutualText (connection : Connection.t) (mutual : Mutual.t)
  | ExportButton.

Record Line : Type := mkLine {
  x1 : R; y1 : R; x2 : R; y2 : R;
  stroke : string;
  strokeWidth : R
}.

Record Scene : Type := mkScene {
  nodePositions : gmap string Point.t;
  transform : Point.t * R;
  cursor : string;
  lines : list Line;
  elements : list Element
}.

(** [hoveredConnection === connection.id] *)
Definition isHovered (hovered : option string) (connection : Connection.t) : bool :=
  match hovered with
  | Some h => String.eqb h (Connection.id connection)
  | None => false
  end.

Definition connectionLines (st : UIState) (conns : list Connection.t)
    (positions : gmap string Point.t) : list Line :=
  omap (λ connection,
    match positions !! "user", positions !! Connection.id connection with
    | Some userPos, Some connectionPos =>
        Some (mkLine (Point.x userPos) (Point.y userPos)
                (Point.x connectionPos) (Point.y connectionPos)
                (if isHovered (hoveredConnection st) connection
                 then "#0A66C2" else "#E4E6EA")
                (if isHovered (hoveredConnection st) connection then 3 else 2))
    | _, _ => None
    end) conns.

Definition mutualLines (conns : list Connection.t)
    (positions : gmap string Point.t) : list Line :=
  flat_map (λ connection,
    match Connection.mutualConnections connection with
    | None => []
    | Some mutuals =>
        omap (λ mutual,
          match positions !! Connection.id connection,
                positions !! mutualKey connection mutual with
          | Some connectionPos, Some mutualPos =>
              Some (mkLine (Point.x connectionPos) (Point.y connectionPos)
                      (Point.x mutualPos) (Point.y mutualPos) "#E4E6EA" 1)
          | _, _ => None
          end) mutuals
    end) conns.

Definition connectionNodes (conns : list Connection.t)
    (positions : gmap string Point.t) : list Element :=
  flat_map (λ connection,
    match positions !! Connection.id connection with
    | None => []
    | Some _ =>
        [ ConnectionCircle connection; ConnectionText connection;
          StrengthIndicator connection ]
    end) conns.

Definition mutualNodes (conns : list Connection.t)
    (positions : gmap string Point.t) : list Element :=
  flat_map (λ connection,
    match Connection.mutualConnections connection with
    | None => []
    | Some mutuals =>
        flat_map (λ mutual,
          match positions !! mutualKey connection mutual with
          | None => []
          | Some _ =>
              [ MutualCircle connection mutual; MutualText connection mutual ]
          end) mutuals
    end) conns.

(** One run of the component function: the layout is recomputed, then the
    tree is built from the props, the state and the layout. *)
Definition render (p : Props) (st : UIState) (rnd : RandomSource)
    : Scene * RandomSource :=
  let '(positions, rnd) :=
    calculateNodePositions (viewMode p) (connections p) rnd in
  (mkScene positions
     (pan st, zoom st)
     (if isDragging st then "grabbing" else "grab")
     (connectionLines st (connections p) positions
        ++ mutualLines (connections p) positions)
     (map (λ mode, ViewModeButton mode.1.1) viewModes
        ++ [ZoomInButton; ZoomOutButton; ResetButton]
        ++ [CentralCircle; CentralText]
        ++ connectionNodes (connections p) positions
        ++ mutualNodes (connections p) positions
        ++ [ExportButton]),
   rnd).

(** ** Operations on the mounted component *)

Inductive Op : Type :=
  | Render
  | Svg (ev : SvgEvent)
  | Zoom (direction : string)
  | ResetView
  | NodeClick (node : Node)
  | ConnectionHover (connectionId : option string)
  | ViewModeChange (value : string)
  | Export.

(** The [onClick], [onMouseEnter] and [onMouseLeave] attributes. *)
Definition onClick (el : Element) : option Op :=
  match el with
  | ViewModeButton value => Some (ViewModeChange value)
  | ZoomInButton => Some (Zoom "in")
  | ZoomOutButton => Some (Zoom "out")
  | ResetButton => Some ResetView
  | CentralCircle => Some (NodeClick (ObjectLiteral "user" "You"))
  | CentralText => None
  | ConnectionCircle connection => Some (NodeClick (ConnectionObj connection))
  | ConnectionText connection => Some (NodeClick (ConnectionObj connection))
  | StrengthIndicator _ => None
  | MutualCircle _ mutual => Some (NodeClick (MutualObj mutual))
  | MutualText _ mutual => Some (NodeClick (MutualObj mutual))
  | ExportButton => Some Export
  end.

Definition onMouseEnter (el : Element) : option Op :=
  match el with
  | ConnectionCircle connection =>
      Some (ConnectionHover (Some (Connection.id connection)))
  | _ => None
  end.

Definition onMouseLeave (el : Element) : option Op :=
  match el with
  | ConnectionCircle _ => Some (ConnectionHover None)
  | _ => None
  end.

(** The component together with what it was given and what it has emitted. *)
Record World : Type := mkWorld {
  props : Props;
  ui : UIState;
  random : RandomSource;
  scene : Scene;
  emitted : list Effect
}.

Definition with_ui (w : World) (st : UIState) : World :=
  mkWorld (props w) st (random w) (scene w) (emitted w).

Definition emit (w : World) (effs : list Effect) : World :=
  mkWorld (props w) (ui w) (random w) (scene w) (emitted w ++ effs).

Definition step (op : Op) (w : World) : World :=
  match op with
  | Render =>
      let '(sc, rnd) := render (props w) (ui w) (random w) in
      mkWorld (props w) (ui w) rnd sc (emitted w)
  | Svg ev => with_ui w (svgListener ev (ui w))
  | Zoom direction => with_ui w (handleZoom direction (ui w))
  | ResetView => with_ui w (resetView (ui w))
  | NodeClick node => emit w (handleNodeClick node)
  | ConnectionHover connectionId =>
      with_ui w (handleConnectionHover connectionId (ui w))
  | ViewModeChange value => emit w [onViewModeChange value]
  | Export => emit w [console_log "Export network data"]
  end.

Definition run (ops : list Op) (w : World) : World :=
  foldl (λ w op, step op w) w ops.

(** Mounting: the first render, from the initial state. *)
Definition mount (p : Props) (rnd : RandomSource) : World :=
  let '(sc, rnd) := render p initialState rnd in
  mkWorld p initialState rnd sc [].

(** A click on an element runs its [onClick] handler, if it has one. *)
Definition clickOn (el : Element) (w : World) : World :=
  match onClick el with
  | Some op => step op w
  | None => w
  end.

(** A click on the [k]-th element of the current scene. *)
Definition click (k : nat) (w : World) : World :=
  match elements (scene w) !! k with
  | Some el => clickOn el w
  | None => w
  end.

(** ** Node labels *)

(** [String.prototype.split] with a one-character separator: the pieces
    between the separators, in order; never an empty array. *)
Fixpoint split (separator : Ascii.ascii) (s : string) : list string :=
  match s with
  | EmptyString => [EmptyString]
  | String c s' =>
      if Ascii.eqb c separator then EmptyString :: split separator s'
      else
        match split separator s' with
        | piece :: pieces => String c piece :: pieces
        | [] => [String c EmptyString]
        end
  end.

(** The text under a node: [name.split(' ')[0]]; [None] stands for the
    [undefined] that indexing an empty array would give. *)
Definition firstName (name : string) : option string :=
  split Ascii.Space name !! 0%nat.

Definition connectionLabel (connection : Connection.t) : option string :=
  firstName (Connection.name connection).

Definition mutualLabel (mutual : Mutual.t) : option string :=
  firstName (Mutual.name mutual).

(** [variant] of a view-mode button:
    [viewMode === mode.value ? 'default' : 'outline']. *)
Definition viewModeVariant (viewMode : string)
    (mode : string * string * string) : string :=
  if String.eqb viewMode mode.1.1 then "default" else "outline".

(** * The page header ([Header], components/ui)

    Strings the user types are sequences of UTF-16 code units.  The two
    built-ins the search handler calls are taken as given: which code units
    [trim] regards as white space, and [encodeURIComponent], which may throw
    a [URIError]. *)

Module Header.

Definition JsString : Type := list N.

Definition ofString (s : string) : JsString :=
  map Ascii.N_of_ascii (String.list_ascii_of_string s).

Record State : Type := mkState {
  searchQuery : JsString;
  showProfileMenu : bool;
  showMobileMenu : bool
}.

Definition initialState : State := mkState [] false false.

(** [navigationItems]: label, path, icon. *)
Definition navigationItems : list (string * string * string) :=
  [ ("Home", "/home-dashboard", "Home");
    ("Ideas", "/ideas-whiteboard", "Lightbulb");
    ("Network", "/connection-network-tree", "Users");
    ("Products", "/products-showcase", "Package") ].

Inductive Effect : Type :=
  | preventDefault
  | setLocationHref (href : JsString)
  | throwURIError.

Section Builtins.
Variable isWhiteSpace : N → bool.
Variable encodeURIComponent : JsString → option JsString.

Fixpoint trimStart (s : JsString) : JsString :=
  match s with
  | [] => []
  | u :: s' => if isWhiteSpace u then trimStart s' else s
  end.

Definition trimEnd (s : JsString) : JsString := rev (trimStart (rev s)).

(** [String.prototype.trim] *)
Definition trim (s : JsString) : JsString := trimEnd (trimStart s).

(** A string is truthy when it is not empty. *)
Definition truthy (s : JsString) : bool :=
  match s with [] => false | _ :: _ => true end.

(** [handleSearch]: what the submit handler does, in order. *)
Definition handleSearch (st : State) : list Effect :=
  preventDefault ::
  (if truthy (trim (searchQuery st)) then
     match encodeURIComponent (searchQuery st) with
     | Some encoded =>
         [setLocationHref (ofString "/search-results?q=" ++ encoded)%list]
     | None => [throwURIError]
     end
   else []).
End Builtins.

(** [handleSearchChange], with [e.target.value] as [value]. *)
Definition handleSearchChange (value : JsString) (st : State) : State :=
  mkState value (showProfileMenu st) (showMobileMenu st).

(** [location.pathname === path] *)
Definition isActivePath (pathname path : string) : bool :=
  String.eqb pathname path.

Definition toggleProfileMenu (st : State) : State :=
  mkState (searchQuery st) (negb (showProfileMenu st)) (showMobileMenu st).

Definition toggleMobileMenu (st : State) : State :=
  mkState (searchQuery st) (showProfileMenu st) (negb (showMobileMenu st)).

(** [onClick] of a link of the mobile menu: [setShowMobileMenu(false)]. *)
Definition mobileLinkClick (st : State) : State :=
  mkState (searchQuery st) (showProfileMenu st) false.

(** The navigation items drawn as active, in the desktop bar and in the
    mobile menu alike. *)
Definition activeItems (pathname : string) : list (string * string * string) :=
  filter (λ item, isActivePath pathname item.1.2 = true) navigationItems.

End Header.

(** * Vocabulary of the properties *)

(** ** The layout as a sequence of writes *)

(** [positions.set(k, v)] for every pair of [ws], first to last. *)
Definition applyWrites {V : Type} (ws : list (string * V))
    (m : gmap string V) : gmap string V :=
  foldl (λ m kv, <[kv.1 := kv.2]> m) m ws.

(** The map before the loop runs. *)
Definition userOnly : gmap string Point.t :=
  <["user" := Point.mk centerX centerY]> ∅.

(** The closed-form reference layout.  The angle 2*pi*i/n of the connection
    at index [i] of [n]: *)
Definition angleOf (i n : nat) : R := 2 * PI * INR i / INR n.

(** the point at [angle] on the circle of [radius] around (400, 300): *)
Definition onCircle (angle radius : R) : Point.t :=
  Point.mk (400 + cos angle * radius) (300 + sin angle * radius).

(** the angle of the mutual connection at index [j] of a connection placed at
    [angle]. *)
Definition subAngleOf (angle : R) (j : nat) : R := angle + (INR j - 1) * 0.3.

Definition mutualWrites (c : Connection.t) (angle : R)
    : list (string * Point.t) :=
  match Connection.mutualConnections c with
  | None => []
  | Some mutuals =>
      concat (imap (λ j mutual,
        [(mutualKey c mutual, onCircle (subAngleOf angle j) 250)]) mutuals)
  end.

Definition treeWrites (n i : nat) (c : Connection.t) : list (string * Point.t) :=
  (Connection.id c, onCircle (angleOf i n) 150) :: mutualWrites c (angleOf i n).

Definition circularWrites (n i : nat) (c : Connection.t)
    : list (string * Point.t) :=
  [(Connection.id c, onCircle (angleOf i n) 200)].

(** The writes of the force-directed branch. *)
Fixpoint forceWrites (rnd : RandomSource) (conns : list Connection.t)
    : list (string * Point.t) :=
  match conns with
  | [] => []
  | c :: conns =>
      (Connection.id c,
       Point.mk (centerX + cos (rnd 0%nat * 2 * PI) * (100 + rnd 1%nat * 150))
                (centerY + sin (rnd 0%nat * 2 * PI) * (100 + rnd 1%nat * 150)))
      :: forceWrites (λ k, rnd (S (S k))) conns
  end.

(** The keys the tree branch writes, in the order it writes them. *)
Definition mutualKeys (c : Connection.t) : list string :=
  match Connection.mutualConnections c with
  | None => []
  | Some mutuals => map (mutualKey c) mutuals
  end.

Definition treeKeys (conns : list Connection.t) : list string :=
  flat_map (λ c, Connection.id c :: mutualKeys c) conns.

(** Any view mode other than 'tree' and 'circular' selects the last branch. *)
Definition isForceMode (viewMode : string) : bool :=
  negb (String.eqb viewMode "tree") && negb (String.eqb viewMode "circular").

(** ** Interaction *)

Definition zoomInRange (st : UIState) : Prop := 0.3 <= zoom st <= 3.

Definition isMouseDown (ev : SvgEvent) : bool :=
  match ev with mousedown _ => true | _ => false end.

(** The scene on screen is a render of the props. *)
Definition sceneOfProps (w : World) : Prop :=
  ∃ st rnd, scene w = (render (props w) st rnd).1.

(** The effects of a click, by element. *)
Definition clickEffects (el : Element) : list Effect :=
  match el with
  | CentralCircle => [onNodeSelect (ObjectLiteral "user" "You")]
  | ConnectionCircle c | ConnectionText c => [onNodeSelect (ConnectionObj c)]
  | MutualCircle _ m | MutualText _ m => [onNodeSelect (MutualObj m)]
  | ViewModeButton value => [onViewModeChange value]
  | ExportButton => [console_log "Export network data"]
  | _ => []
  end.

(** The nodes the component can report: the literal for the central node, a
    connection of the props, or a mutual connection of one. *)
Definition selectable (p : Props) (node : Node) : Prop :=
  node = ObjectLiteral "user" "You"
  ∨ (∃ c, c ∈ connections p ∧ node = ConnectionObj c)
  ∨ (∃ c mutuals mutual,
       c ∈ connections p ∧ Connection.mutualConnections c = Some mutuals
       ∧ mutual ∈ mutuals ∧ node = MutualObj mutual).

(** A call of one of the two callback props. *)
Definition isCallback (eff : Effect) : Prop :=
  match eff with
  | onNodeSelect _ | onViewModeChange _ => True
  | console_log _ => False
  end.

(** ** Sample inputs *)

Definition mutual_m1 : Mutual.t := Mutual.mk "m1" "Mia Poe".
Definition mutual_m2 : Mutual.t := Mutual.mk "m2" "Max Orr".

Definition conn_a : Connection.t := Connection.mk "a" "Ann Lee" None None.
Definition conn_a2 : Connection.t := Connection.mk "a" "Al Roe" None None.
Definition conn_b : Connection.t :=
  Connection.mk "b" "Bo Day" (Some 50) (Some [mutual_m1; mutual_m2]).
Definition conn_user : Connection.t := Connection.mk "user" "Uma Kay" None None.

Definition draws_zero : RandomSource := λ _, 0.
Definition draws_half : RandomSource := λ k, if k is 1%nat then 1 / 2 else 0.
Definition draws_half_then_one : RandomSource :=
  λ k, if (k <? 2)%nat then draws_half k else 1.

Definition event_10_20 : MouseEvent := mkMouseEvent 10 20.
Definition event_15_26 : MouseEvent := mkMouseEvent 15 26.

Definition sample_props : Props := mkProps [conn_b; conn_a] "tree".

(** A white-space predicate and an encoder to run the header's search on:
    space and tab are white space, and the encoder escapes the space. *)
Definition sampleWhiteSpace (u : N) : bool := (u =? 32)%N || (u =? 9)%N.

Definition sampleEncode (s : Header.JsString) : option Header.JsString :=
  Some (flat_map (λ u, if (u =? 32)%N then [37; 50; 48]%N else [u]) s).

(** ** Vocabulary of the further properties *)

(** The order of the three strengths. *)
Definition strengthRank (strength : string) : nat :=
  if String.eqb strength "strong" then 2
  else if String.eqb strength "medium" then 1
  else 0.

(** A click on a zoom button, [n] times. *)
Definition zoomTimes (direction : string) (n : nat) (st : UIState) : UIState :=
  Nat.iter n (handleZoom direction) st.

(** A drag gesture: press at [a], move through [moves], release. *)
Definition dragGesture (a : MouseEvent) (moves : list MouseEvent)
    (release : SvgEvent) : list SvgEvent :=
  (mousedown a :: map mousemove moves ++ [release])%list.

Definition conn_c : Connection.t :=
  Connection.mk "c" "Cy Fox" (Some 51) None.

(** The three elements drawn for every connection, and the two drawn for
    every mutual connection, in list order. *)
Definition allConnectionNodes (conns : list Connection.t) : list Element :=
  flat_map (λ c,
    [ConnectionCircle c; ConnectionText c; StrengthIndicator c]) conns.

Definition allMutualNodes (conns : list Connection.t) : list Element :=
  flat_map (λ c,
    match Connection.mutualConnections c with
    | None => []
    | Some mutuals =>
        flat_map (λ mutual, [MutualCircle c mutual; MutualText c mutual])
          mutuals
    end) conns.

(** [line] is the edge from the central node to [c], as drawn in state [st]
    over the layout [positions]. *)
Definition edgeOf (st : UIState) (positions : gmap string Point.t)
    (c : Connection.t) (line : Line) : Prop :=
  ∃ userPos connectionPos,
    positions !! "user" = Some userPos
    ∧ positions !! Connection.id c = Some connectionPos
    ∧ line = mkLine (Point.x userPos) (Point.y userPos)
               (Point.x connectionPos) (Point.y connectionPos)
               (if isHovered (hoveredConnection st) c
                then "#0A66C2" else "#E4E6EA")
               (if isHovered (hoveredConnection st) c then 3 else 2).

(** The pointer enters, or leaves, an element. *)
Definition mouseEnterOn (el : Element) (w : World) : World :=
  match onMouseEnter el with
  | Some op => step op w
  | None => w
  end.

Definition mouseLeaveOn (el : Element) (w : World) : World :=
  match onMouseLeave el with
  | Some op => step op w
  | None => w
  end.

(** No key of a mutual connection is also the id of a connection. *)
Definition mutualKeysApart (conns : list Connection.t) : Prop :=
  ∀ c k, c ∈ conns → k ∈ mutualKeys c → k ∉ map Connection.id conns.

(** The square of the distance of a point from the center (400, 300). *)
Definition distance2 (pos : Point.t) : R :=
  (Point.x pos - 400) * (Point.x pos - 400)
  + (Point.y pos - 300) * (Point.y pos - 300).

(** Every draw of [Math.random] lies in [0, 1). *)
Definition drawsInUnit (rnd : RandomSource) : Prop := ∀ k, 0 <= rnd k < 1.

(** What an operation hands to the outside. *)
Definition opEffects (op : Op) : list Effect :=
  match op with
  | NodeClick node => [onNodeSelect node]
  | ViewModeChange value => [onViewModeChange value]
  | Export => [console_log "Export network data"]
  | _ => []
  end.

(** [piece] has no occurrence of [separator]. *)
Definition freeOf (separator : Ascii.ascii) (piece : string) : Prop :=
  Forall (λ c, c ≠ separator) (String.list_ascii_of_string piece).

(** The view-mode buttons drawn as selected. *)
Definition selectedModes (viewMode : string) : list string :=
  map (λ mode, mode.1.1)
    (filter (λ mode, viewModeVariant viewMode mode = "default") viewModes).

(** ** Proof steps *)

(** Case analysis on the pair returned by a [render] in the goal. *)
Ltac destruct_render :=
  match goal with
  | |- context [render ?p ?st ?rnd] => destruct (render p st rnd)
  end.

(** * Properties *)

(** ** Sanity checks on the sample inputs *)

Example treeKeys_sample :
  treeKeys [conn_b; conn_a] = ["b"; "b-m1"; "b-m2"; "a"].
Proof. reflexivity. Qed.

Example onClick_sample :
  onClick (MutualText conn_b mutual_m2) = Some (NodeClick (MutualObj mutual_m2))
  ∧ onClick (StrengthIndicator conn_b) = None
  ∧ onMouseEnter (ConnectionCircle conn_b) = Some (ConnectionHover (Some "b")).
Proof. by repeat split. Qed.

Example drag_sample :
  svgListeners [mousedown event_10_20; mousemove event_15_26; mouseup;
                mousemove event_10_20] initialState
  = mkUIState 1 (Point.mk (15 - (10 - 0)) (26 - (20 - 0))) false
      (Point.mk (10 - 0) (20 - 0)) None.
Proof. reflexivity. Qed.

(** ** Writes to a map *)

Section Writes.
Context {V : Type}.
Implicit Types (ws : list (string * V)) (m : gmap string V).

Lemma applyWrites_cons k v ws m :
  applyWrites ((k, v) :: ws) m = applyWrites ws (<[k := v]> m).
Proof. reflexivity. Qed.

Lemma applyWrites_app ws1 ws2 m :
  applyWrites (ws1 ++ ws2) m = applyWrites ws2 (applyWrites ws1 m).
Proof. apply foldl_app. Qed.

Lemma applyWrites_lookup_notin ws : ∀ m k,
  k ∉ ws.*1 → applyWrites ws m !! k = m !! k.
Proof.
  induction ws as [|[k' v'] ws IH]; intros m k Hk; [done|].
  rewrite fmap_cons in Hk. apply not_elem_of_cons in Hk as [Hne Hk].
  rewrite applyWrites_cons, IH by done. by apply lookup_insert_ne.
Qed.

(** The last write to a key decides what [get] returns. *)
Lemma applyWrites_lookup_last ws1 ws2 m k v :
  k ∉ ws2.*1 → applyWrites (ws1 ++ (k, v) :: ws2) m !! k = Some v.
Proof.
  intros Hk. rewrite applyWrites_app, applyWrites_cons.
  rewrite applyWrites_lookup_notin by done. apply lookup_insert_eq.
Qed.

Lemma applyWrites_lookup_in ws m k v :
  NoDup ws.*1 → (k, v) ∈ ws → applyWrites ws m !! k = Some v.
Proof.
  intros Hnd Hin. apply list_elem_of_split in Hin as (ws1 & ws2 & ->).
  apply applyWrites_lookup_last.
  rewrite fmap_app, fmap_cons in Hnd. cbn in Hnd.
  apply NoDup_app in Hnd as (_ & _ & Hnd). by apply NoDup_cons in Hnd as [? _].
Qed.

Lemma applyWrites_lookup_is_Some ws : ∀ m k,
  is_Some (applyWrites ws m !! k) ↔ k ∈ ws.*1 ∨ is_Some (m !! k).
Proof.
  induction ws as [|[k' v'] ws IH]; intros m k.
  - cbn. rewrite elem_of_nil. tauto.
  - rewrite applyWrites_cons, IH, fmap_cons, elem_of_cons, lookup_insert_is_Some'.
    cbn. intuition congruence.
Qed.

(** A [forEach] whose callback only writes is the sequence of its writes. *)
Lemma forEach_from_writes {A : Type}
    (f : A → nat → gmap string V → gmap string V)
    (w : nat → A → list (string * V)) :
  (∀ a j m, f a j m = applyWrites (w j a) m) →
  ∀ l index m,
    forEach_from f index l m
    = applyWrites (concat (imap (λ j, w (index + j)%nat) l)) m.
Proof.
  intros Hf. induction l as [|a l IH]; intros index m; [done|].
  cbn [forEach_from imap concat]. rewrite applyWrites_app, IH, Hf.
  rewrite Nat.add_0_r. do 2 f_equal. apply imap_ext. intros j x _. cbn.
  f_equal. lia.
Qed.

Lemma elem_of_concat_imap {A : Type} (w : nat → A → list (string * V))
    (l : list A) i a kv :
  l !! i = Some a → kv ∈ w i a → kv ∈ concat (imap w l).
Proof.
  intros Hl Hkv. apply list_elem_of_In, in_concat. exists (w i a).
  split; apply list_elem_of_In; [|done]. by apply elem_of_lookup_imap_2.
Qed.

Lemma keys_concat_imap {A : Type} (keys : A → list string) (l : list A) :
  ∀ w : nat → A → list (string * V),
    (∀ j a, (w j a).*1 = keys a) → (concat (imap w l)).*1 = flat_map keys l.
Proof.
  induction l as [|a l IH]; intros w Hw; [done|].
  cbn [imap concat flat_map]. rewrite fmap_app, Hw. f_equal.
  apply IH. intros j b. apply Hw.
Qed.
End Writes.

Lemma flat_map_singleton {A B : Type} (f : A → B) (l : list A) :
  flat_map (λ a, [f a]) l = map f l.
Proof. induction l as [|a l IH]; [done|]. cbn. by rewrite IH. Qed.

(** ** Each branch of the layout is its reference sequence of writes *)

Lemma source_angle (i n : nat) : INR i / INR n * 2 * PI = angleOf i n.
Proof. unfold angleOf, Rdiv. ring. Qed.

Lemma placeMutuals_writes c angle positions :
  placeMutuals c angle positions = applyWrites (mutualWrites c angle) positions.
Proof.
  unfold placeMutuals, mutualWrites.
  destruct (Connection.mutualConnections c) as [mutuals|]; [|done].
  unfold forEach.
  by rewrite (forEach_from_writes _
    (λ j mutual, [(mutualKey c mutual, onCircle (subAngleOf angle j) 250)])).
Qed.

Lemma tree_is_writes conns rnd :
  (calculateNodePositions "tree" conns rnd).1
  = applyWrites (concat (imap (treeWrites (length conns)) conns)) userOnly.
Proof.
  unfold calculateNodePositions. rewrite String.eqb_refl. cbn [fst].
  unfold forEach.
  rewrite (forEach_from_writes _ (treeWrites (length conns))); [done|].
  intros c j m. cbn beta zeta. rewrite source_angle, placeMutuals_writes.
  reflexivity.
Qed.

Lemma circular_is_writes conns rnd :
  (calculateNodePositions "circular" conns rnd).1
  = applyWrites (concat (imap (circularWrites (length conns)) conns)) userOnly.
Proof.
  unfold calculateNodePositions.
  replace (String.eqb "circular" "tree") with false by reflexivity.
  rewrite String.eqb_refl. cbn [fst]. unfold forEach.
  rewrite (forEach_from_writes _ (circularWrites (length conns))); [done|].
  intros c j m. cbn beta zeta. rewrite source_angle. reflexivity.
Qed.

Lemma calculateNodePositions_force viewMode conns rnd :
  isForceMode viewMode = true →
  calculateNodePositions viewMode conns rnd
  = forEach forcePlace conns (userOnly, rnd).
Proof.
  unfold isForceMode, calculateNodePositions. intros Hm.
  apply andb_prop in Hm as [H1 H2].
  apply negb_true_iff in H1, H2. by rewrite H1, H2.
Qed.

Lemma force_is_writes conns : ∀ index positions rnd,
  (forEach_from forcePlace index conns (positions, rnd)).1
  = applyWrites (forceWrites rnd conns) positions.
Proof.
  induction conns as [|c conns IH]; intros index positions rnd; [done|].
  cbn [forEach_from forcePlace Math_random forceWrites].
  by rewrite IH, applyWrites_cons.
Qed.

(** The force-directed branch reads two draws per connection and no more. *)
Lemma forceWrites_draws conns : ∀ r1 r2 : RandomSource,
  (∀ k, (k < 2 * length conns)%nat → r1 k = r2 k) →
  forceWrites r1 conns = forceWrites r2 conns.
Proof.
  induction conns as [|c conns IH]; intros r1 r2 Hd; [done|].
  cbn [forceWrites]. cbn [length] in Hd.
  rewrite (Hd 0%nat), (Hd 1%nat) by lia. f_equal.
  apply IH. intros k Hk. apply Hd. lia.
Qed.

Lemma mutualWrites_keys c angle : (mutualWrites c angle).*1 = mutualKeys c.
Proof.
  unfold mutualWrites, mutualKeys.
  destruct (Connection.mutualConnections c) as [mutuals|]; [|done].
  rewrite (keys_concat_imap (λ mutual, [mutualKey c mutual])) by done.
  apply flat_map_singleton.
Qed.

Lemma treeWrites_keys n conns :
  (concat (imap (treeWrites n) conns)).*1 = treeKeys conns.
Proof.
  apply keys_concat_imap. intros j c. unfold treeWrites.
  by rewrite fmap_cons, mutualWrites_keys.
Qed.

Lemma circularWrites_keys n conns :
  (concat (imap (circularWrites n) conns)).*1 = map Connection.id conns.
Proof.
  rewrite (keys_concat_imap (λ c, [Connection.id c])) by done.
  apply flat_map_singleton.
Qed.

Lemma forceWrites_keys conns : ∀ rnd,
  (forceWrites rnd conns).*1 = map Connection.id conns.
Proof.
  induction conns as [|c conns IH]; intros rnd; [done|].
  cbn [forceWrites map]. by rewrite fmap_cons, IH.
Qed.

Lemma userOnly_lookup_is_Some k : is_Some (userOnly !! k) ↔ k = "user".
Proof.
  unfold userOnly. rewrite lookup_insert_is_Some', lookup_empty.
  split; [intros [->|[? ?]]; done | intros ->; by left].
Qed.

(** ** C1: the tree and circular layouts in closed form *)

(** C1, as stated, fails when two connections share an id: the second
    [positions.set] under the key replaces the first, so the connection at
    index 0 of two is found at (250, 300), the place of index 1, and not at
    (550, 300). *)
Lemma layout_closed_form_counterexample :
  [conn_a; conn_a2] !! 0%nat = Some conn_a
  ∧ (calculateNodePositions "tree" [conn_a; conn_a2] draws_zero).1
      !! Connection.id conn_a
    ≠ Some (Point.mk (400 + cos (2 * PI * 0 / 2) * 150)
                     (300 + sin (2 * PI * 0 / 2) * 150)).
Proof.
  split; [reflexivity|]. rewrite tree_is_writes.
  change (applyWrites _ _ !! _) with
    (applyWrites ([("a", onCircle (angleOf 0 2) 150)]
                    ++ ("a", onCircle (angleOf 1 2) 150) :: []) userOnly !! "a").
  rewrite applyWrites_lookup_last by (cbn; apply not_elem_of_nil).
  intros [= Hx _]. revert Hx. unfold angleOf. cbn [INR].
  replace (2 * PI * 1 / (1 + 1)) with PI by field.
  replace (2 * PI * 0 / 2) with 0 by field.
  rewrite cos_PI, cos_0. lra.
Qed.

(** C1 (amended): when the keys written by the loop are pairwise distinct, in
    'tree' mode the connection at index i of n is at
    (400 + cos(2*pi*i/n)*150, 300 + sin(2*pi*i/n)*150) and its mutual
    connection at index j is at angle 2*pi*i/n + (j-1)*0.3 with radius 250
    around (400, 300); in 'circular' mode the connection at index i is at the
    same angle with radius 200.  In both modes the map has the key 'user' and
    the keys written by the loop, and no other. *)
Theorem layout_closed_form conns rnd :
  let n := length conns in
  let tree := (calculateNodePositions "tree" conns rnd).1 in
  let circular := (calculateNodePositions "circular" conns rnd).1 in
  (NoDup (treeKeys conns) →
   ∀ i c, conns !! i = Some c →
     let angle := 2 * PI * INR i / INR n in
     tree !! Connection.id c
     = Some (Point.mk (400 + cos angle * 150) (300 + sin angle * 150))
     ∧ ∀ mutuals j mutual,
         Connection.mutualConnections c = Some mutuals →
         mutuals !! j = Some mutual →
         let subAngle := angle + (INR j - 1) * 0.3 in
         tree !! mutualKey c mutual
         = Some (Point.mk (400 + cos subAngle * 250)
                          (300 + sin subAngle * 250)))
  ∧ (NoDup (map Connection.id conns) →
     ∀ i c, conns !! i = Some c →
       let angle := 2 * PI * INR i / INR n in
       circular !! Connection.id c
       = Some (Point.mk (400 + cos angle * 200) (300 + sin angle * 200)))
  ∧ (∀ k, is_Some (tree !! k) ↔ k = "user" ∨ k ∈ treeKeys conns)
  ∧ (∀ k, is_Some (circular !! k)
          ↔ k = "user" ∨ k ∈ map Connection.id conns).
Proof.
  intros n tree circular. subst n tree circular.
  rewrite tree_is_writes, circular_is_writes.
  pose proof (treeWrites_keys (length conns) conns) as Htree.
  pose proof (circularWrites_keys (length conns) conns) as Hcirc.
  split; [|split; [|split]].
  - intros Hnd i c Hc angle. split.
    + apply applyWrites_lookup_in; [by rewrite Htree|].
      apply (elem_of_concat_imap _ _ i c); [done|]. apply list_elem_of_here.
    + intros mutuals j mutual Hms Hm subAngle.
      apply applyWrites_lookup_in; [by rewrite Htree|].
      apply (elem_of_concat_imap _ _ i c); [done|].
      unfold treeWrites, mutualWrites. rewrite Hms. apply list_elem_of_further.
      apply (elem_of_concat_imap _ _ j mutual); [done|].
      apply list_elem_of_here.
  - intros Hnd i c Hc angle.
    apply applyWrites_lookup_in; [by rewrite Hcirc|].
    apply (elem_of_concat_imap _ _ i c); [done|]. apply list_elem_of_here.
  - intros k.
    rewrite applyWrites_lookup_is_Some, Htree, userOnly_lookup_is_Some. tauto.
  - intros k.
    rewrite applyWrites_lookup_is_Some, Hcirc, userOnly_lookup_is_Some. tauto.
Qed.

Lemma layout_closed_form_witness :
  let tree := (calculateNodePositions "tree" [conn_b; conn_a] draws_zero).1 in
  let circular :=
    (calculateNodePositions "circular" [conn_b; conn_a] draws_zero).1 in
  tree !! "a" = Some (Point.mk (400 + cos (2 * PI * INR 1 / INR 2) * 150)
                               (300 + sin (2 * PI * INR 1 / INR 2) * 150))
  ∧ tree !! "b-m2"
    = Some (Point.mk
        (400 + cos (2 * PI * INR 0 / INR 2 + (INR 1 - 1) * 0.3) * 250)
        (300 + sin (2 * PI * INR 0 / INR 2 + (INR 1 - 1) * 0.3) * 250))
  ∧ circular !! "a"
    = Some (Point.mk (400 + cos (2 * PI * INR 1 / INR 2) * 200)
                     (300 + sin (2 * PI * INR 1 / INR 2) * 200)).
Proof.
  destruct (layout_closed_form [conn_b; conn_a] draws_zero)
    as (Htree & Hcircular & _).
  assert (Hkeys : NoDup (treeKeys [conn_b; conn_a]))
    by (apply (bool_decide_unpack _); vm_compute; exact I).
  assert (Hids : NoDup (map Connection.id [conn_b; conn_a]))
    by (apply (bool_decide_unpack _); vm_compute; exact I).
  split; [|split].
  - exact (proj1 (Htree Hkeys 1%nat conn_a eq_refl)).
  - exact (proj2 (Htree Hkeys 0%nat conn_b eq_refl)
             [mutual_m1; mutual_m2] 1%nat mutual_m2 eq_refl eq_refl).
  - exact (Hcircular Hids 1%nat conn_a eq_refl).
Defined.

(** ** C2: determinism of the layout *)

(** C2, as stated, fails in the force-directed branch: with the same view
    mode and the same connection, two evaluations whose [Math.random] draws
    differ place the connection at (500, 300) and at (575, 300). *)
Lemma layout_deterministic_counterexample :
  (calculateNodePositions "force" [conn_a] draws_zero).1
  ≠ (calculateNodePositions "force" [conn_a] draws_half).1.
Proof.
  intros Heq. apply (f_equal (λ m : gmap string Point.t, m !! "a")) in Heq.
  rewrite !calculateNodePositions_force in Heq by reflexivity.
  unfold forEach in Heq. rewrite !force_is_writes in Heq.
  cbn [forceWrites] in Heq. rewrite !applyWrites_cons in Heq.
  cbn [applyWrites foldl] in Heq. rewrite !lookup_insert_eq in Heq.
  injection Heq as Hx _. revert Hx. unfold draws_zero, draws_half, centerX.
  rewrite !Rmult_0_l, cos_0. lra.
Qed.

(** C2 (amended): in the 'tree' and 'circular' view modes the positions map
    is a function of the view mode and the connections alone; in every other
    view mode it is a function of these and of the 2n values that
    [Math.random] returns during the evaluation. *)
Theorem layout_deterministic viewMode conns (r1 r2 : RandomSource) :
  (isForceMode viewMode = true →
   ∀ k, (k < 2 * length conns)%nat → r1 k = r2 k) →
  (calculateNodePositions viewMode conns r1).1
  = (calculateNodePositions viewMode conns r2).1.
Proof.
  destruct (isForceMode viewMode) eqn:Hm; intros Hd.
  - rewrite !calculateNodePositions_force by done. unfold forEach.
    rewrite !force_is_writes. f_equal. apply forceWrites_draws. by apply Hd.
  - unfold isForceMode in Hm. unfold calculateNodePositions.
    destruct (String.eqb viewMode "tree"); [done|].
    destruct (String.eqb viewMode "circular"); [done|]. discriminate.
Qed.

Lemma layout_deterministic_witness :
  (calculateNodePositions "tree" [conn_a] draws_zero).1
  = (calculateNodePositions "tree" [conn_a] draws_half).1
  ∧ (calculateNodePositions "force" [conn_a] draws_half).1
    = (calculateNodePositions "force" [conn_a] draws_half_then_one).1.
Proof.
  split.
  - apply (layout_deterministic "tree" [conn_a]). discriminate.
  - apply (layout_deterministic "force" [conn_a]).
    intros _ k Hk. unfold draws_half_then_one.
    destruct k as [|[|k]]; [reflexivity | reflexivity | simpl in Hk; lia].
Defined.

(** ** C10: the keys of the positions map *)

Lemma mutualKey_not_user c mutual : mutualKey c mutual ≠ "user".
Proof.
  unfold mutualKey.
  destruct (Connection.id c) as [|a1 [|a2 [|a3 [|a4 [|a5 s]]]]];
    cbn; intros H; inversion H.
Qed.

Lemma treeKeys_ids conns c : c ∈ conns → Connection.id c ∈ treeKeys conns.
Proof.
  intros Hc. unfold treeKeys. apply list_elem_of_In, in_flat_map.
  exists c. split; [by apply list_elem_of_In | by left].
Qed.

Lemma treeKeys_user conns :
  "user" ∈ treeKeys conns → "user" ∈ map Connection.id conns.
Proof.
  unfold treeKeys. intros H. apply list_elem_of_In, in_flat_map in H.
  destruct H as (c & Hc & Hk). apply list_elem_of_In in Hk.
  apply elem_of_cons in Hk as [Hk|Hk].
  - rewrite Hk. apply list_elem_of_In, in_map, Hc.
  - unfold mutualKeys in Hk.
    destruct (Connection.mutualConnections c) as [mutuals|].
    + apply list_elem_of_In, in_map_iff in Hk as (mutual & Hk & _).
      by apply mutualKey_not_user in Hk.
    + by apply elem_of_nil in Hk.
Qed.

(** In every view mode the layout is the center followed by a sequence of
    writes whose keys include every connection id, and include 'user' only
    if a connection has that id. *)
Lemma positions_as_writes viewMode conns rnd :
  ∃ ws : list (string * Point.t),
    (calculateNodePositions viewMode conns rnd).1 = applyWrites ws userOnly
    ∧ (∀ c, c ∈ conns → Connection.id c ∈ ws.*1)
    ∧ ("user" ∈ ws.*1 → "user" ∈ map Connection.id conns).
Proof.
  destruct (String.eqb viewMode "tree") eqn:Ht;
    [|destruct (String.eqb viewMode "circular") eqn:Hc].
  - apply String.eqb_eq in Ht as ->.
    exists (concat (imap (treeWrites (length conns)) conns)).
    rewrite treeWrites_keys.
    split; [apply tree_is_writes|]. split; [apply treeKeys_ids|].
    apply treeKeys_user.
  - apply String.eqb_eq in Hc as ->.
    exists (concat (imap (circularWrites (length conns)) conns)).
    rewrite circularWrites_keys.
    split; [apply circular_is_writes|]. split; [|done].
    intros c Hc. by apply list_elem_of_In, in_map, list_elem_of_In.
  - exists (forceWrites rnd conns). rewrite forceWrites_keys.
    split; [|split; [|done]].
    + rewrite calculateNodePositions_force
        by (unfold isForceMode; by rewrite Ht, Hc).
      apply force_is_writes.
    + intros c Hin. by apply list_elem_of_In, in_map, list_elem_of_In.
Qed.

Lemma positions_has_ids viewMode conns rnd c :
  c ∈ conns →
  is_Some ((calculateNodePositions viewMode conns rnd).1 !! Connection.id c).
Proof.
  intros Hc.
  destruct (positions_as_writes viewMode conns rnd) as (ws & -> & Hids & _).
  apply applyWrites_lookup_is_Some. left. by apply Hids.
Qed.

(** C10, as stated, fails for a connection whose id is 'user': its write
    replaces the central node's entry, and 'user' is then mapped to
    (550, 300). *)
Lemma positions_keys_counterexample :
  (calculateNodePositions "tree" [conn_user] draws_zero).1 !! "user"
  ≠ Some (Point.mk 400 300).
Proof.
  rewrite tree_is_writes.
  change (applyWrites _ _ !! _) with
    (applyWrites ([] ++ ("user", onCircle (angleOf 0 1) 150) :: [])
       userOnly !! "user").
  rewrite applyWrites_lookup_last by (cbn; apply not_elem_of_nil).
  intros [= Hx _]. revert Hx. unfold angleOf. cbn [INR].
  replace (2 * PI * 0 / 1) with 0 by field. rewrite cos_0. lra.
Qed.

(** C10 (amended): in every view mode and for every connections list,
    including the empty one, calculateNodePositions returns a map that has
    the key 'user' and a key for every connection's id; for the empty list it
    is exactly {user: (400, 300)}; and when no connection has the id 'user',
    'user' is mapped to (400, 300), the same in all view modes. *)
Theorem positions_keys viewMode conns rnd :
  let positions := (calculateNodePositions viewMode conns rnd).1 in
  (calculateNodePositions viewMode [] rnd).1 = {["user" := Point.mk 400 300]}
  ∧ is_Some (positions !! "user")
  ∧ (∀ c, c ∈ conns → is_Some (positions !! Connection.id c))
  ∧ ("user" ∉ map Connection.id conns →
     positions !! "user" = Some (Point.mk 400 300)).
Proof.
  intros positions. subst positions. split.
  { unfold calculateNodePositions.
    destruct (String.eqb viewMode "tree"); [apply insert_empty|].
    destruct (String.eqb viewMode "circular"); apply insert_empty. }
  destruct (positions_as_writes viewMode conns rnd) as (ws & Hpos & _ & Huser).
  rewrite Hpos. split; [|split].
  - apply applyWrites_lookup_is_Some. right. by apply userOnly_lookup_is_Some.
  - intros c Hc. rewrite <- Hpos. by apply positions_has_ids.
  - intros Hnot.
    rewrite applyWrites_lookup_notin by (intros H; by apply Hnot, Huser).
    apply lookup_insert_eq.
Qed.

Lemma positions_keys_witness :
  (calculateNodePositions "force" [conn_a; conn_b] draws_half).1 !! "user"
  = Some (Point.mk 400 300).
Proof.
  apply (positions_keys "force" [conn_a; conn_b] draws_half).
  apply (bool_decide_unpack _). vm_compute. exact I.
Defined.

(** ** The mounted component: what every operation preserves *)

Lemma render_fst p st rnd :
  (render p st rnd).1
  = let positions :=
      (calculateNodePositions (viewMode p) (connections p) rnd).1 in
    mkScene positions (pan st, zoom st)
      (if isDragging st then "grabbing" else "grab")
      (connectionLines st (connections p) positions
         ++ mutualLines (connections p) positions)
      (map (λ mode, ViewModeButton mode.1.1) viewModes
         ++ [ZoomInButton; ZoomOutButton; ResetButton]
         ++ [CentralCircle; CentralText]
         ++ connectionNodes (connections p) positions
         ++ mutualNodes (connections p) positions
         ++ [ExportButton]).
Proof.
  unfold render.
  by destruct (calculateNodePositions (viewMode p) (connections p) rnd).
Qed.

Lemma run_cons op ops w : run (op :: ops) w = run ops (step op w).
Proof. reflexivity. Qed.

Lemma step_props op w : props (step op w) = props w.
Proof. destruct op; try reflexivity. cbn [step]. by destruct_render. Qed.

Lemma run_props ops : ∀ w, props (run ops w) = props w.
Proof.
  induction ops as [|op ops IH]; intros w; [done|].
  by rewrite run_cons, IH, step_props.
Qed.

Lemma mount_props p rnd : props (mount p rnd) = p.
Proof. unfold mount. by destruct_render. Qed.

Lemma mount_ui p rnd : ui (mount p rnd) = initialState.
Proof. unfold mount. by destruct_render. Qed.

Lemma mount_emitted p rnd : emitted (mount p rnd) = [].
Proof. unfold mount. by destruct_render. Qed.

(** Only a render consumes random draws. *)
Lemma step_random op w : op ≠ Render → random (step op w) = random w.
Proof. by destruct op. Qed.

Lemma run_random ops : ∀ w,
  Forall (λ op, op ≠ Render) ops → random (run ops w) = random w.
Proof.
  induction ops as [|op ops IH]; intros w Hops; [done|].
  apply Forall_cons in Hops as [Hop Hops].
  by rewrite run_cons, IH, step_random.
Qed.

Lemma step_Render_positions w :
  nodePositions (scene (step Render w))
  = (calculateNodePositions (viewMode (props w)) (connections (props w))
       (random w)).1.
Proof.
  cbn [step].
  destruct (render (props w) (ui w) (random w)) as [sc rnd] eqn:Hrender.
  apply (f_equal fst) in Hrender. cbn [fst scene] in Hrender |- *.
  by rewrite <- Hrender, render_fst.
Qed.

Lemma step_sceneOfProps op w : sceneOfProps w → sceneOfProps (step op w).
Proof.
  intros (st & rnd & Hsc). destruct op; try (by exists st, rnd).
  exists (ui w), (random w). rewrite step_props. cbn [step].
  by destruct_render.
Qed.

Lemma run_sceneOfProps ops : ∀ w, sceneOfProps w → sceneOfProps (run ops w).
Proof.
  induction ops as [|op ops IH]; intros w Hw; [done|].
  rewrite run_cons. apply IH. by apply step_sceneOfProps.
Qed.

Lemma mount_sceneOfProps p rnd : sceneOfProps (mount p rnd).
Proof.
  exists initialState, rnd. rewrite mount_props. unfold mount.
  by destruct_render.
Qed.

(** ** C3: the interaction state does not reach the layout *)

(** C3: for every connections list and view mode, two renders that differ
    only in zoom, pan, isDragging, dragStart and hoveredConnection compute the
    same positions map, the one [calculateNodePositions] computes from the
    props (and consume the same random draws); and whatever zooms, drags,
    hovers, clicks and resets happen before it, the next render computes the
    positions it would have computed without them. *)
Theorem layout_ignores_interaction p (st1 st2 : UIState) rnd :
  nodePositions (render p st1 rnd).1 = nodePositions (render p st2 rnd).1
  ∧ (render p st1 rnd).2 = (render p st2 rnd).2
  ∧ nodePositions (render p st1 rnd).1
    = (calculateNodePositions (viewMode p) (connections p) rnd).1
  ∧ (∀ w ops,
       Forall (λ op, op ≠ Render) ops →
       nodePositions (scene (step Render (run ops w)))
       = nodePositions (scene (step Render w))).
Proof.
  split; [|split; [|split]].
  - by rewrite !render_fst.
  - unfold render.
    by destruct (calculateNodePositions (viewMode p) (connections p) rnd).
  - by rewrite render_fst.
  - intros w ops Hops.
    by rewrite !step_Render_positions, run_props, run_random.
Qed.

Lemma layout_ignores_interaction_witness :
  let w := mount sample_props draws_half in
  let ops := [ Zoom "in"; Svg (mousedown event_10_20);
               Svg (mousemove event_15_26); ConnectionHover (Some "a");
               ResetView; Zoom "out" ] in
  nodePositions (scene (step Render (run ops w)))
  = nodePositions (scene (step Render w)).
Proof.
  intros w ops.
  apply (layout_ignores_interaction sample_props initialState initialState
           draws_half).
  subst ops. repeat constructor; discriminate.
Defined.

(** ** C5: frame conditions of the handlers *)

(** C5: handleZoom changes only zoom; handleMouseMove changes only pan;
    handleConnectionHover changes only hoveredConnection; resetView changes
    only zoom (to 1) and pan (to (0, 0)). *)
Theorem handlers_frame st :
  (∀ direction,
     let st' := handleZoom direction st in
     pan st' = pan st ∧ isDragging st' = isDragging st
     ∧ dragStart st' = dragStart st
     ∧ hoveredConnection st' = hoveredConnection st)
  ∧ (∀ e,
     let st' := handleMouseMove e st in
     zoom st' = zoom st ∧ isDragging st' = isDragging st
     ∧ dragStart st' = dragStart st
     ∧ hoveredConnection st' = hoveredConnection st)
  ∧ (∀ connectionId,
     let st' := handleConnectionHover connectionId st in
     zoom st' = zoom st ∧ pan st' = pan st
     ∧ isDragging st' = isDragging st ∧ dragStart st' = dragStart st
     ∧ hoveredConnection st' = connectionId)
  ∧ (let st' := resetView st in
     zoom st' = 1 ∧ pan st' = Point.mk 0 0
     ∧ isDragging st' = isDragging st ∧ dragStart st' = dragStart st
     ∧ hoveredConnection st' = hoveredConnection st).
Proof.
  cbv zeta. split; [|split; [|split]].
  - intros direction. repeat split; reflexivity.
  - intros e. unfold handleMouseMove.
    destruct (isDragging st) eqn:Hd; repeat split; try reflexivity; by cbn.
  - intros connectionId. repeat split; reflexivity.
  - repeat split; reflexivity.
Qed.

(** ** C8: the zoom factor stays in range *)

Lemma handleZoom_in_range direction st :
  zoomInRange st → zoomInRange (handleZoom direction st).
Proof.
  unfold zoomInRange, handleZoom. cbn [zoom]. intros [Hlo Hhi].
  destruct (String.eqb direction "in").
  - unfold Rmin. destruct (Rle_dec _ _); lra.
  - unfold Rmax. destruct (Rle_dec _ _); lra.
Qed.

Lemma svgListener_zoom ev st : zoom (svgListener ev st) = zoom st.
Proof.
  destruct ev; try reflexivity.
  unfold svgListener, handleMouseMove. by destruct (isDragging st).
Qed.

Lemma step_in_range op w : zoomInRange (ui w) → zoomInRange (ui (step op w)).
Proof.
  intros Hz. destruct op; cbn [step]; try exact Hz.
  - by destruct_render.
  - unfold zoomInRange. cbn [with_ui ui]. by rewrite svgListener_zoom.
  - by apply handleZoom_in_range.
  - unfold zoomInRange. cbn. lra.
Qed.

Lemma run_in_range ops : ∀ w, zoomInRange (ui w) → zoomInRange (ui (run ops w)).
Proof.
  induction ops as [|op ops IH]; intros w Hz; [done|].
  rewrite run_cons. apply IH. by apply step_in_range.
Qed.

(** C8: from the initial zoom of 1, after every sequence of operations zoom
    lies between 0.3 and 3; handleZoom('in') sets zoom to min(zoom * 1.2, 3),
    handleZoom('out') sets it to max(zoom / 1.2, 0.3), resetView to 1. *)
Theorem zoom_in_range p rnd ops :
  zoom (ui (mount p rnd)) = 1
  ∧ 0.3 <= zoom (ui (run ops (mount p rnd))) <= 3
  ∧ (∀ st, zoom (handleZoom "in" st) = Rmin (zoom st * 1.2) 3)
  ∧ (∀ st, zoom (handleZoom "out" st) = Rmax (zoom st / 1.2) 0.3)
  ∧ (∀ st, zoom (resetView st) = 1).
Proof.
  split; [by rewrite mount_ui|]. split; [|done].
  apply run_in_range. rewrite mount_ui. unfold zoomInRange. cbn. lra.
Qed.

(** ** C9: connection strength *)

Lemma interactions_or_0_Some c v :
  Connection.interactions c = Some v → interactions_or_0 c = v.
Proof.
  unfold interactions_or_0. intros ->. by destruct (Req_dec_T v 0).
Qed.

(** C9: getConnectionStrength returns 'strong' iff interactions > 50,
    'medium' iff 20 < interactions <= 50 and 'weak' otherwise, a missing
    interactions field counting as 0; exactly 50 is 'medium' and exactly 20
    is 'weak', while the legend reads 'Strong (50+ interactions)',
    'Medium (20-50 interactions)', 'Weak (<20 interactions)'. *)
Theorem connection_strength c :
  let interactions := interactions_or_0 c in
  (getConnectionStrength c = "strong" ↔ 50 < interactions)
  ∧ (getConnectionStrength c = "medium" ↔ 20 < interactions <= 50)
  ∧ (getConnectionStrength c = "weak" ↔ interactions <= 20)
  ∧ (∀ v, Connection.interactions c = Some v → interactions = v)
  ∧ (Connection.interactions c = None →
     interactions = 0 ∧ getConnectionStrength c = "weak")
  ∧ (Connection.interactions c = Some 50 → getConnectionStrength c = "medium")
  ∧ (Connection.interactions c = Some 20 → getConnectionStrength c = "weak")
  ∧ legend = [ "Strong (50+ interactions)"; "Medium (20-50 interactions)";
               "Weak (<20 interactions)" ].
Proof.
  cbv zeta. unfold getConnectionStrength.
  split; [|split; [|split; [|split; [|split; [|split; [|split]]]]]].
  1-3: destruct (Rlt_dec 50 (interactions_or_0 c)),
         (Rlt_dec 20 (interactions_or_0 c)); split; intros H;
    try discriminate; try reflexivity; lra.
  - apply interactions_or_0_Some.
  - intros Hnone. unfold interactions_or_0. rewrite Hnone. split; [done|].
    destruct (Rlt_dec 50 0), (Rlt_dec 20 0); try reflexivity; lra.
  - intros H. rewrite (interactions_or_0_Some _ _ H).
    destruct (Rlt_dec 50 50), (Rlt_dec 20 50); try reflexivity; lra.
  - intros H. rewrite (interactions_or_0_Some _ _ H).
    destruct (Rlt_dec 50 20), (Rlt_dec 20 20); try reflexivity; lra.
  - reflexivity.
Qed.

Lemma connection_strength_witness :
  getConnectionStrength conn_b = "medium"
  ∧ getConnectionStrength conn_a = "weak".
Proof.
  split.
  - destruct (connection_strength conn_b) as (_ & _ & _ & _ & _ & H50 & _).
    exact (H50 eq_refl).
  - destruct (connection_strength conn_a) as (_ & _ & _ & _ & Hnone & _).
    exact (proj2 (Hnone eq_refl)).
Defined.

(** ** C6: panning is gated by the drag flag *)

Lemma svgListeners_snoc evs ev st :
  svgListeners (evs ++ [ev]) st = svgListener ev (svgListeners evs st).
Proof. unfold svgListeners. by rewrite foldl_app. Qed.

Lemma handleMouseMove_idle e st :
  isDragging st = false → handleMouseMove e st = st.
Proof. unfold handleMouseMove. by intros ->. Qed.

(** Without a mousedown, an idle component stays idle and keeps its state. *)
Lemma svgListeners_idle evs : ∀ st,
  isDragging st = false →
  Forall (λ ev, isMouseDown ev = false) evs →
  pan (svgListeners evs st) = pan st
  ∧ isDragging (svgListeners evs st) = false.
Proof.
  induction evs as [|ev evs IH]; intros st Hidle Hevs; [done|].
  apply Forall_cons in Hevs as [Hev Hevs].
  change (svgListeners (ev :: evs) st)
    with (svgListeners evs (svgListener ev st)).
  destruct ev as [e|e| |]; try discriminate; cbn [svgListener].
  - rewrite handleMouseMove_idle by done. by apply IH.
  - destruct (IH (handleMouseUp st)) as [-> ->]; done.
  - destruct (IH (handleMouseUp st)) as [-> ->]; done.
Qed.

(** C6: handleMouseMove never changes pan while isDragging is false;
    isDragging becomes true only on mousedown, which records dragStart =
    mouse position - pan; it becomes false on mouseup and mouseleave, after
    which no mousemove changes pan until the next mousedown; and while
    dragging, pan = mouse position - dragStart. *)
Theorem pan_is_drag_gated :
  (∀ e st, isDragging st = false → handleMouseMove e st = st)
  ∧ (∀ ev st, isDragging st = false →
       isDragging (svgListener ev st) = true → isMouseDown ev = true)
  ∧ (∀ e st,
       let st' := svgListener (mousedown e) st in
       isDragging st' = true ∧ pan st' = pan st
       ∧ dragStart st' = Point.mk (clientX e - Point.x (pan st))
                                  (clientY e - Point.y (pan st)))
  ∧ (∀ st, isDragging (svgListener mouseup st) = false
           ∧ pan (svgListener mouseup st) = pan st
           ∧ isDragging (svgListener mouseleave st) = false
           ∧ pan (svgListener mouseleave st) = pan st)
  ∧ (∀ ev evs st,
       ev = mouseup ∨ ev = mouseleave →
       Forall (λ ev, isMouseDown ev = false) evs →
       pan (svgListeners (ev :: evs) st) = pan st
       ∧ isDragging (svgListeners (ev :: evs) st) = false)
  ∧ (∀ evs ev e st,
       ev = mousedown e ∨ ev = mousemove e →
       let st' := svgListeners (evs ++ [ev]) st in
       isDragging st' = true →
       pan st' = Point.mk (clientX e - Point.x (dragStart st'))
                          (clientY e - Point.y (dragStart st'))).
Proof.
  split; [exact handleMouseMove_idle|].
  split; [|split; [|split; [|split]]].
  - intros [e|e| |] st Hidle; cbn [svgListener]; try done.
    by rewrite handleMouseMove_idle, Hidle.
  - intros e st. cbv zeta. repeat split; reflexivity.
  - intros st. repeat split; reflexivity.
  - intros ev evs st Hev Hevs.
    change (svgListeners (ev :: evs) st)
      with (svgListeners evs (svgListener ev st)).
    destruct (svgListeners_idle evs (svgListener ev st)) as [Hpan Hidle];
      [by destruct Hev as [-> | ->] | done |].
    rewrite Hpan, Hidle. by destruct Hev as [-> | ->].
  - intros evs ev e st Hev st'. subst st'. rewrite svgListeners_snoc.
    set (st1 := svgListeners evs st). destruct Hev as [-> | ->].
    + intros _. cbn. destruct (pan st1) as [px py]. cbn. f_equal; lra.
    + cbn [svgListener]. unfold handleMouseMove.
      destruct (isDragging st1) eqn:Hd; [done|]. by rewrite Hd.
Qed.

Lemma pan_is_drag_gated_witness :
  handleMouseMove event_15_26 initialState = initialState
  ∧ pan (svgListeners
           [mouseup; mousemove event_10_20; mousemove event_15_26]
           (svgListeners [mousedown event_10_20; mousemove event_15_26]
              initialState))
    = pan (svgListeners [mousedown event_10_20; mousemove event_15_26]
             initialState)
  ∧ pan (svgListeners ([mousedown event_10_20] ++ [mousemove event_15_26])
           initialState)
    = Point.mk (15 - (10 - 0)) (26 - (20 - 0)).
Proof.
  destruct pan_is_drag_gated as (Hidle & _ & _ & _ & Hup & Hdrag).
  split; [|split].
  - apply Hidle. reflexivity.
  - apply Hup; [by left|]. repeat constructor.
  - apply (Hdrag [mousedown event_10_20] (mousemove event_15_26) event_15_26
             initialState); [by right | reflexivity].
Defined.

(** ** C4: what a click selects *)

Lemma elem_of_connectionNodes conns positions el :
  el ∈ connectionNodes conns positions →
  ∃ c, c ∈ conns
       ∧ el ∈ [ConnectionCircle c; ConnectionText c; StrengthIndicator c].
Proof.
  unfold connectionNodes. intros H.
  apply list_elem_of_In, in_flat_map in H as (c & Hc & Hel).
  exists c. split; [by apply list_elem_of_In|].
  destruct (positions !! Connection.id c); [by apply list_elem_of_In | done].
Qed.

Lemma elem_of_mutualNodes conns positions el :
  el ∈ mutualNodes conns positions →
  ∃ c mutuals mutual,
    c ∈ conns ∧ Connection.mutualConnections c = Some mutuals
    ∧ mutual ∈ mutuals
    ∧ el ∈ [MutualCircle c mutual; MutualText c mutual].
Proof.
  unfold mutualNodes. intros H.
  apply list_elem_of_In, in_flat_map in H as (c & Hc & Hel).
  destruct (Connection.mutualConnections c) as [mutuals|] eqn:Hms; [|done].
  apply in_flat_map in Hel as (mutual & Hm & Hel).
  exists c, mutuals, mutual.
  split; [by apply list_elem_of_In|]. split; [done|].
  split; [by apply list_elem_of_In|].
  destruct (positions !! mutualKey c mutual); [by apply list_elem_of_In | done].
Qed.

Lemma connectionCircle_rendered conns positions c :
  c ∈ conns → is_Some (positions !! Connection.id c) →
  ConnectionCircle c ∈ connectionNodes conns positions.
Proof.
  intros Hc [pos Hpos]. unfold connectionNodes.
  apply list_elem_of_In, in_flat_map. exists c.
  split; [by apply list_elem_of_In|]. rewrite Hpos. by left.
Qed.

Lemma clickOn_emitted el w :
  emitted (clickOn el w) = (emitted w ++ clickEffects el)%list.
Proof. destruct el; cbn; by rewrite ?app_nil_r. Qed.

Lemma rendered_click_selectable p st rnd el node :
  el ∈ elements (render p st rnd).1 →
  onNodeSelect node ∈ clickEffects el → selectable p node.
Proof.
  rewrite render_fst. cbn [elements]. rewrite !elem_of_app.
  intros [Hel|[Hel|[Hel|[Hel|[Hel|Hel]]]]] Hnode.
  - apply list_elem_of_fmap in Hel as (mode & -> & _).
    apply list_elem_of_singleton in Hnode. discriminate.
  - repeat (apply elem_of_cons in Hel as [->|Hel]);
      by apply elem_of_nil in Hnode || by apply elem_of_nil in Hel.
  - repeat (apply elem_of_cons in Hel as [->|Hel]);
      try (by apply elem_of_nil in Hnode); try (by apply elem_of_nil in Hel).
    apply list_elem_of_singleton in Hnode as [= ->]. by left.
  - apply elem_of_connectionNodes in Hel as (c & Hc & Hel).
    repeat (apply elem_of_cons in Hel as [->|Hel]);
      try (by apply elem_of_nil in Hnode); try (by apply elem_of_nil in Hel).
    all: apply list_elem_of_singleton in Hnode as [= ->]; right; left; eauto.
  - apply elem_of_mutualNodes in Hel as (c & mutuals & mutual & Hc & Hms & Hm & Hel).
    repeat (apply elem_of_cons in Hel as [->|Hel]);
      try (by apply elem_of_nil in Hel).
    all: apply list_elem_of_singleton in Hnode as [= ->]; right; right;
      eauto 10.
  - apply list_elem_of_singleton in Hel as ->.
    apply list_elem_of_singleton in Hnode. discriminate.
Qed.

(** C4: in every state the mounted component can reach, a click on the
    central node calls onNodeSelect with {id: 'user', name: 'You'}, a click
    on a connection node (circle or label) calls it with that connection, a
    click on a mutual-connection node calls it with that mutual connection;
    the central node and a node for every connection are on screen; and a
    click on any element on screen calls onNodeSelect with no other value. *)
Theorem node_click_selects p rnd ops :
  let w := run ops (mount p rnd) in
  emitted (clickOn CentralCircle w)
  = (emitted w ++ [onNodeSelect (ObjectLiteral "user" "You")])%list
  ∧ (∀ c,
       emitted (clickOn (ConnectionCircle c) w)
       = (emitted w ++ [onNodeSelect (ConnectionObj c)])%list
       ∧ emitted (clickOn (ConnectionText c) w)
         = (emitted w ++ [onNodeSelect (ConnectionObj c)])%list)
  ∧ (∀ c mutual,
       emitted (clickOn (MutualCircle c mutual) w)
       = (emitted w ++ [onNodeSelect (MutualObj mutual)])%list
       ∧ emitted (clickOn (MutualText c mutual) w)
         = (emitted w ++ [onNodeSelect (MutualObj mutual)])%list)
  ∧ CentralCircle ∈ elements (scene w)
  ∧ (∀ c, c ∈ connections p → ConnectionCircle c ∈ elements (scene w))
  ∧ (∀ k, ∃ effs,
       emitted (click k w) = (emitted w ++ effs)%list
       ∧ ∀ node, onNodeSelect node ∈ effs → selectable p node).
Proof.
  intros w.
  assert (Hp : props w = p) by (subst w; by rewrite run_props, mount_props).
  assert (Hsc : sceneOfProps w)
    by (subst w; apply run_sceneOfProps, mount_sceneOfProps).
  destruct Hsc as (st & r & Hsc). rewrite Hp in Hsc. clearbody w.
  split; [apply clickOn_emitted|].
  split; [intros c; split; apply clickOn_emitted|].
  split; [intros c mutual; split; apply clickOn_emitted|].
  rewrite Hsc, render_fst. cbn [elements]. split; [|split].
  - rewrite !elem_of_app. right. right. left. apply list_elem_of_here.
  - intros c Hc. rewrite !elem_of_app. right. right. right. left.
    apply connectionCircle_rendered; [done|]. by apply positions_has_ids.
  - intros k. unfold click. rewrite Hsc.
    destruct (elements (render p st r).1 !! k) as [el|] eqn:Hel.
    + exists (clickEffects el). split; [apply clickOn_emitted|].
      intros node. apply (rendered_click_selectable p st r el).
      by apply list_elem_of_lookup_2 in Hel.
    + exists []. split; [by rewrite app_nil_r|].
      intros node Hnode. by apply elem_of_nil in Hnode.
Qed.

Lemma node_click_selects_witness :
  let p := sample_props in
  let w := run [Zoom "in"; Render] (mount p draws_zero) in
  ConnectionCircle conn_a ∈ elements (scene w)
  ∧ emitted (clickOn (ConnectionCircle conn_a) w)
    = (emitted w ++ [onNodeSelect (ConnectionObj conn_a)])%list.
Proof.
  intros p w.
  destruct (node_click_selects p draws_zero [Zoom "in"; Render])
    as (_ & Hconn & _ & _ & Hscreen & _).
  split.
  - apply Hscreen. apply list_elem_of_further, list_elem_of_here.
  - apply Hconn.
Defined.

(** ** C7: the props are read-only and only the callbacks are called *)

Lemma step_emitted_callbacks op w :
  op ≠ Export → Forall isCallback (emitted w) →
  Forall isCallback (emitted (step op w)).
Proof.
  intros Hop Hw. destruct op; cbn [step]; try exact Hw; try done.
  - by destruct_render.
  - cbn. apply Forall_app. split; [done|]. by repeat constructor.
  - cbn. apply Forall_app. split; [done|]. by repeat constructor.
Qed.

Lemma run_emitted_callbacks ops : ∀ w,
  Forall (λ op, op ≠ Export) ops → Forall isCallback (emitted w) →
  Forall isCallback (emitted (run ops w)).
Proof.
  induction ops as [|op ops IH]; intros w Hops Hw; [done|].
  apply Forall_cons in Hops as [Hop Hops].
  apply IH; [done|]. by apply step_emitted_callbacks.
Qed.

(** C7: for every connections list and every sequence of layout
    computations, zooms, mouse events on the canvas, hovers, node clicks,
    view resets and view-mode selections, the props are what was passed in,
    and everything the component has emitted is a call of onNodeSelect or of
    onViewModeChange. *)
Theorem props_read_only p rnd ops :
  Forall (λ op, op ≠ Export) ops →
  let w := run ops (mount p rnd) in
  props w = p
  ∧ connections (props w) = connections p
  ∧ Forall isCallback (emitted w).
Proof.
  intros Hops w. subst w. rewrite run_props, mount_props.
  split; [done|]. split; [done|].
  apply run_emitted_callbacks; [done|]. rewrite mount_emitted. constructor.
Qed.

Lemma props_read_only_witness :
  let p := sample_props in
  let ops :=
    [ Render; Zoom "in"; Svg (mousedown event_10_20);
      Svg (mousemove event_15_26); Svg mouseup;
      ConnectionHover (Some "a"); NodeClick (ConnectionObj conn_a);
      ResetView; ViewModeChange "circular" ] in
  props (run ops (mount p draws_zero)) = p
  ∧ Forall isCallback (emitted (run ops (mount p draws_zero))).
Proof.
  intros p ops.
  destruct (props_read_only p draws_zero ops) as (Hp & _ & He).
  - subst ops. repeat constructor; discriminate.
  - by split.
Defined.

(** * Further properties of the component *)

(** ** Strength and colour *)

Lemma getConnectionStrength_cases c :
  (50 < interactions_or_0 c ∧ getConnectionStrength c = "strong")
  ∨ (20 < interactions_or_0 c <= 50 ∧ getConnectionStrength c = "medium")
  ∨ (interactions_or_0 c <= 20 ∧ getConnectionStrength c = "weak").
Proof.
  unfold getConnectionStrength.
  destruct (Rlt_dec 50 (interactions_or_0 c)); [left; by split|].
  destruct (Rlt_dec 20 (interactions_or_0 c)); [right; left|right; right];
    split; try reflexivity; lra.
Qed.

(** X1: more interactions never give a lower strength: the classification
    is monotone in the interaction count. *)
Theorem strength_monotone c1 c2 :
  interactions_or_0 c1 <= interactions_or_0 c2 →
  (strengthRank (getConnectionStrength c1)
   ≤ strengthRank (getConnectionStrength c2))%nat.
Proof.
  intros Hle.
  destruct (getConnectionStrength_cases c1) as [[H1 ->]|[[H1 ->]|[H1 ->]]],
    (getConnectionStrength_cases c2) as [[H2 ->]|[[H2 ->]|[H2 ->]]];
    cbn; try lia; lra.
Qed.

Lemma strength_monotone_witness :
  (strengthRank (getConnectionStrength conn_a)
   ≤ strengthRank (getConnectionStrength conn_b))%nat.
Proof.
  apply strength_monotone. unfold interactions_or_0. cbn.
  destruct (Req_dec_T 50 0); lra.
Defined.

(** X2: the fill colour of a node is '#0A66C2' iff interactions > 50,
    '#42B883' iff 20 < interactions <= 50 and '#65676B' iff
    interactions <= 20; two connections have the same colour exactly when
    they have the same strength. *)
Theorem node_color_by_strength c :
  (getNodeColor c = "#0A66C2" ↔ 50 < interactions_or_0 c)
  ∧ (getNodeColor c = "#42B883" ↔ 20 < interactions_or_0 c <= 50)
  ∧ (getNodeColor c = "#65676B" ↔ interactions_or_0 c <= 20)
  ∧ (∀ c', getNodeColor c = getNodeColor c'
           ↔ getConnectionStrength c = getConnectionStrength c').
Proof.
  unfold getNodeColor.
  split; [|split; [|split]].
  1-3: destruct (getConnectionStrength_cases c) as [[H ->]|[[H ->]|[H ->]]];
    cbn; split; intros Hc; try discriminate; try reflexivity; lra.
  - intros c'.
    destruct (getConnectionStrength_cases c) as [[_ ->]|[[_ ->]|[_ ->]]],
      (getConnectionStrength_cases c') as [[_ ->]|[[_ ->]|[_ ->]]];
      cbn; split; intros Hc; try discriminate; reflexivity.
Qed.

Lemma node_color_by_strength_witness :
  getNodeColor conn_c = "#0A66C2" ∧ getNodeColor conn_a ≠ getNodeColor conn_c.
Proof.
  destruct (node_color_by_strength conn_c) as (Hstrong & _ & _ & _).
  destruct (node_color_by_strength conn_a) as (_ & _ & Hweak & _).
  assert (Hc : getNodeColor conn_c = "#0A66C2").
  { apply Hstrong. unfold interactions_or_0. cbn.
    destruct (Req_dec_T 51 0); lra. }
  assert (Ha : getNodeColor conn_a = "#65676B").
  { apply Hweak. unfold interactions_or_0. cbn. lra. }
  split; [exact Hc|]. rewrite Ha, Hc. discriminate.
Defined.

(** ** Zooming step by step *)

Lemma zoomTimes_S direction n st :
  zoomTimes direction (S n) st = handleZoom direction (zoomTimes direction n st).
Proof. reflexivity. Qed.

Lemma zoomTimes_in n : ∀ st,
  zoom st <= 3 → zoom (zoomTimes "in" n st) = Rmin (zoom st * 1.2 ^ n) 3.
Proof.
  induction n as [|n IH]; intros st Hz.
  - cbn. unfold Rmin. destruct (Rle_dec _ _); lra.
  - rewrite zoomTimes_S. unfold handleZoom. cbn [zoom String.eqb Ascii.eqb Bool.eqb].
    rewrite IH by done. cbn [pow]. set (a := zoom st * 1.2 ^ n).
    replace (zoom st * (1.2 * 1.2 ^ n)) with (a * 1.2) by (unfold a; ring).
    unfold Rmin.
    destruct (Rle_dec a 3), (Rle_dec (a * 1.2) 3), (Rle_dec (3 * 1.2) 3); lra.
Qed.

Lemma zoomTimes_out n : ∀ st,
  0.3 <= zoom st → zoom (zoomTimes "out" n st) = Rmax (zoom st / 1.2 ^ n) 0.3.
Proof.
  induction n as [|n IH]; intros st Hz.
  - cbn. unfold Rmax. destruct (Rle_dec _ _); lra.
  - rewrite zoomTimes_S. unfold handleZoom. cbn [zoom String.eqb Ascii.eqb Bool.eqb].
    rewrite IH by done. cbn [pow]. set (a := zoom st / 1.2 ^ n).
    replace (zoom st / (1.2 * 1.2 ^ n)) with (a / 1.2)
      by (unfold a, Rdiv; rewrite (Rinv_mult 1.2); ring).
    unfold Rmax.
    destruct (Rle_dec a 0.3), (Rle_dec (a / 1.2) 0.3),
      (Rle_dec (0.3 / 1.2) 0.3); lra.
Qed.

(** X3: within the range, zooming in never lowers the zoom factor and
    zooming out never raises it; at 3 zooming in, and at 0.3 zooming out,
    changes nothing; and any direction other than 'in' zooms out. *)
Theorem zoom_steps st :
  zoomInRange st →
  zoom st <= zoom (handleZoom "in" st)
  ∧ zoom (handleZoom "out" st) <= zoom st
  ∧ (zoom st = 3 → handleZoom "in" st = st)
  ∧ (zoom st = 0.3 → handleZoom "out" st = st)
  ∧ (∀ direction, direction ≠ "in" →
       handleZoom direction st = handleZoom "out" st).
Proof.
  unfold zoomInRange. intros [Hlo Hhi].
  split; [|split; [|split; [|split]]].
  - cbn. unfold Rmin. destruct (Rle_dec _ _); lra.
  - cbn. unfold Rmax. destruct (Rle_dec _ _); lra.
  - intros Hz. destruct st as [z p d ds h]. cbn [zoom] in Hz. subst z.
    unfold handleZoom. cbn -[Rmin]. f_equal.
    unfold Rmin. destruct (Rle_dec (3 * 1.2) 3); lra.
  - intros Hz. destruct st as [z p d ds h]. cbn [zoom] in Hz. subst z.
    unfold handleZoom. cbn -[Rmax]. f_equal.
    unfold Rmax. destruct (Rle_dec (0.3 / 1.2) 0.3); lra.
  - intros direction Hd. unfold handleZoom.
    destruct (String.eqb direction "in") eqn:Heq; [|reflexivity].
    by apply String.eqb_eq in Heq.
Qed.

Lemma zoom_steps_witness :
  zoom initialState <= zoom (handleZoom "in" initialState)
  ∧ handleZoom "reset" initialState = handleZoom "out" initialState.
Proof.
  assert (Hr : zoomInRange initialState) by (unfold zoomInRange; cbn; lra).
  destruct (zoom_steps initialState Hr) as (Hin & _ & _ & _ & Hother).
  split; [exact Hin|]. apply Hother. discriminate.
Defined.

(** X4: from any zoom factor in range, thirteen clicks on a zoom button
    reach the bound (3 zooming in, 0.3 zooming out); from the initial zoom of
    1 the seventh click reaches it and the sixth does not. *)
Theorem zoom_saturates st :
  zoomInRange st →
  zoom (zoomTimes "in" 13 st) = 3
  ∧ zoom (zoomTimes "out" 13 st) = 0.3
  ∧ zoom (zoomTimes "in" 6 initialState) < 3
  ∧ zoom (zoomTimes "in" 7 initialState) = 3
  ∧ 0.3 < zoom (zoomTimes "out" 6 initialState)
  ∧ zoom (zoomTimes "out" 7 initialState) = 0.3.
Proof.
  unfold zoomInRange. intros [Hlo Hhi].
  rewrite !zoomTimes_in, !zoomTimes_out by (cbn; lra).
  cbn [pow zoom initialState]. unfold Rmin, Rmax.
  repeat split; destruct (Rle_dec _ _); lra.
Qed.

Lemma zoom_saturates_witness :
  zoom (zoomTimes "in" 13 (handleZoom "out" initialState)) = 3.
Proof.
  apply (zoom_saturates (handleZoom "out" initialState)).
  unfold zoomInRange. cbn. unfold Rmax. destruct (Rle_dec _ _); lra.
Defined.

(** ** Dragging *)

Lemma svgListeners_app evs1 evs2 st :
  svgListeners (evs1 ++ evs2) st = svgListeners evs2 (svgListeners evs1 st).
Proof. apply foldl_app. Qed.

(** While the button is held, moves keep the drag going from the same
    start, and leave zoom and hover alone. *)
Lemma svgListeners_moves moves : ∀ st,
  isDragging st = true →
  let st' := svgListeners (map mousemove moves) st in
  isDragging st' = true ∧ dragStart st' = dragStart st
  ∧ zoom st' = zoom st ∧ hoveredConnection st' = hoveredConnection st.
Proof.
  induction moves as [|e moves IH]; intros st Hd; [done|].
  cbn [map]. change (svgListeners (mousemove e :: map mousemove moves) st)
    with (svgListeners (map mousemove moves) (handleMouseMove e st)).
  unfold handleMouseMove. rewrite Hd.
  destruct (IH (mkUIState (zoom st)
                  (Point.mk (clientX e - Point.x (dragStart st))
                            (clientY e - Point.y (dragStart st)))
                  true (dragStart st) (hoveredConnection st)) eq_refl)
    as (H1 & H2 & H3 & H4).
  by rewrite H1, H2, H3, H4.
Qed.

(** X5: a drag gesture (press at a, any moves, a last move to b, then
    release or leave) shifts pan by b - a, whatever the moves in between,
    ends the drag and leaves zoom and hover as they were; a press and
    release without a move leaves pan unchanged. *)
Theorem drag_shifts_pan st a moves b release :
  release = mouseup ∨ release = mouseleave →
  let st' := svgListeners (dragGesture a (moves ++ [b]) release) st in
  pan st' = Point.mk (Point.x (pan st) + (clientX b - clientX a))
                     (Point.y (pan st) + (clientY b - clientY a))
  ∧ isDragging st' = false
  ∧ zoom st' = zoom st
  ∧ hoveredConnection st' = hoveredConnection st
  ∧ pan (svgListeners (dragGesture a [] release) st) = pan st.
Proof.
  intros Hrel st'. subst st'. unfold dragGesture.
  split; [|split; [|split; [|split]]].
  5: { destruct Hrel as [-> | ->]; reflexivity. }
  all: change (svgListeners (mousedown a :: ?l) st)
         with (svgListeners l (handleMouseDown a st));
    rewrite map_app, <- app_assoc, svgListeners_app;
    destruct (svgListeners_moves moves (handleMouseDown a st) eq_refl)
      as (Hd & Hs & Hz & Hh);
    set (st1 := svgListeners (map mousemove moves) (handleMouseDown a st)) in *;
    cbn [map app];
    change (svgListeners [mousemove b; release] st1)
      with (svgListener release (handleMouseMove b st1));
    unfold handleMouseMove; rewrite Hd, Hs.
  - destruct Hrel as [-> | ->]; cbn; f_equal; lra.
  - destruct Hrel as [-> | ->]; reflexivity.
  - destruct Hrel as [-> | ->]; cbn; by rewrite Hz.
  - destruct Hrel as [-> | ->]; cbn; by rewrite Hh.
Qed.

Lemma drag_shifts_pan_witness :
  pan (svgListeners
         (dragGesture event_10_20 ([event_10_20] ++ [event_15_26]) mouseup)
         initialState)
  = Point.mk (0 + (15 - 10)) (0 + (26 - 20)).
Proof.
  apply (drag_shifts_pan initialState event_10_20 [event_10_20] event_15_26
           mouseup).
  by left.
Defined.

(** X6: resetView does not end a drag: while the button is held, the next
    mousemove puts pan back to mouse position - dragStart, as if the view had
    not been reset, and only the zoom of 1 remains; when no drag is in
    progress the reset view survives every mousemove. *)
Theorem reset_during_drag st e :
  (isDragging st = true →
   pan (handleMouseMove e (resetView st)) = pan (handleMouseMove e st)
   ∧ zoom (handleMouseMove e (resetView st)) = 1)
  ∧ (isDragging st = false →
     pan (handleMouseMove e (resetView st)) = Point.mk 0 0
     ∧ zoom (handleMouseMove e (resetView st)) = 1).
Proof.
  unfold handleMouseMove, resetView. cbn [isDragging dragStart].
  split; intros ->; by split.
Qed.

Lemma reset_during_drag_witness :
  pan (handleMouseMove event_15_26
         (resetView (handleMouseDown event_10_20 initialState)))
  = pan (handleMouseMove event_15_26 (handleMouseDown event_10_20 initialState))
  ∧ pan (handleMouseMove event_15_26 (resetView initialState)) = Point.mk 0 0.
Proof.
  split.
  - by apply (reset_during_drag (handleMouseDown event_10_20 initialState)).
  - by apply (reset_during_drag initialState).
Defined.

(** ** The scene *)

Lemma positions_has_user viewMode conns rnd :
  is_Some ((calculateNodePositions viewMode conns rnd).1 !! "user").
Proof.
  destruct (positions_as_writes viewMode conns rnd) as (ws & -> & _).
  apply applyWrites_lookup_is_Some. right. by apply userOnly_lookup_is_Some.
Qed.

Lemma connectionNodes_all conns : ∀ positions : gmap string Point.t,
  (∀ c, c ∈ conns → is_Some (positions !! Connection.id c)) →
  connectionNodes conns positions = allConnectionNodes conns.
Proof.
  induction conns as [|c conns IH]; intros positions Hall; [done|].
  unfold connectionNodes, allConnectionNodes in *. cbn [flat_map].
  destruct (Hall c) as [pos ->]; [apply list_elem_of_here|].
  f_equal. apply IH. intros c' Hc'. apply Hall. by apply list_elem_of_further.
Qed.

Lemma connectionLines_all st conns : ∀ positions : gmap string Point.t,
  is_Some (positions !! "user") →
  (∀ c, c ∈ conns → is_Some (positions !! Connection.id c)) →
  Forall2 (edgeOf st positions) conns (connectionLines st conns positions).
Proof.
  intros positions [userPos Huser].
  induction conns as [|c conns IH]; intros Hall; [constructor|].
  assert (IH' := IH (λ c' Hc', Hall c' (list_elem_of_further _ _ _ Hc'))).
  unfold connectionLines in IH' |- *. cbn [omap list_omap].
  destruct (Hall c) as [pos Hpos]; [apply list_elem_of_here|].
  rewrite Huser in IH' |- *. rewrite Hpos.
  constructor; [by exists userPos, pos | exact IH'].
Qed.

(** X7: in every view mode every connection of the list is drawn, in list
    order and also when ids repeat: a circle, a label and a strength
    indicator, and an edge from the central node's position to the position
    its id has in the layout. *)
Theorem every_connection_drawn p st rnd :
  let sc := (render p st rnd).1 in
  elements sc
  = (map ViewModeButton ["tree"; "force"; "circular"]
     ++ [ZoomInButton; ZoomOutButton; ResetButton; CentralCircle; CentralText]
     ++ allConnectionNodes (connections p)
     ++ mutualNodes (connections p) (nodePositions sc)
     ++ [ExportButton])%list
  ∧ ∃ edges,
      lines sc
      = (edges ++ mutualLines (connections p) (nodePositions sc))%list
      ∧ Forall2 (edgeOf st (nodePositions sc)) (connections p) edges.
Proof.
  intros sc. subst sc. rewrite render_fst. cbn [elements lines nodePositions].
  split.
  - rewrite connectionNodes_all; [reflexivity|].
    intros c Hc. by apply positions_has_ids.
  - eexists. split; [reflexivity|].
    apply connectionLines_all; [apply positions_has_user|].
    intros c Hc. by apply positions_has_ids.
Qed.

Lemma flat_map_nil {A B : Type} (f : A → list B) (l : list A) :
  (∀ a, a ∈ l → f a = []) → flat_map f l = [].
Proof.
  induction l as [|a l IH]; intros Hf; [done|]. cbn.
  rewrite (Hf a) by apply list_elem_of_here.
  apply IH. intros b Hb. apply Hf. by apply list_elem_of_further.
Qed.

Lemma flat_map_ext_elem {A B : Type} (f g : A → list B) (l : list A) :
  (∀ a, a ∈ l → f a = g a) → flat_map f l = flat_map g l.
Proof.
  induction l as [|a l IH]; intros Hf; [done|]. cbn.
  rewrite (Hf a) by apply list_elem_of_here. f_equal.
  apply IH. intros b Hb. apply Hf. by apply list_elem_of_further.
Qed.

Lemma omap_nil {A B : Type} (f : A → option B) (l : list A) :
  (∀ a, a ∈ l → f a = None) → omap f l = [].
Proof.
  induction l as [|a l IH]; intros Hf; [done|]. cbn.
  rewrite (Hf a) by apply list_elem_of_here.
  apply IH. intros b Hb. apply Hf. by apply list_elem_of_further.
Qed.

(** Outside the tree branch the layout has the key 'user' and the ids of
    the connections, and no other key. *)
Lemma flat_layout_keys viewMode conns rnd k :
  String.eqb viewMode "tree" = false →
  is_Some ((calculateNodePositions viewMode conns rnd).1 !! k) →
  k = "user" ∨ k ∈ map Connection.id conns.
Proof.
  intros Ht. destruct (String.eqb viewMode "circular") eqn:Hc.
  - apply String.eqb_eq in Hc as ->. rewrite circular_is_writes.
    rewrite applyWrites_lookup_is_Some, circularWrites_keys,
      userOnly_lookup_is_Some. tauto.
  - rewrite calculateNodePositions_force
      by (unfold isForceMode; by rewrite Ht, Hc).
    unfold forEach. rewrite force_is_writes.
    rewrite applyWrites_lookup_is_Some, forceWrites_keys,
      userOnly_lookup_is_Some. tauto.
Qed.

Lemma mutualKey_in_treeKeys conns c mutuals mutual :
  c ∈ conns → Connection.mutualConnections c = Some mutuals →
  mutual ∈ mutuals → mutualKey c mutual ∈ treeKeys conns.
Proof.
  intros Hc Hms Hm. unfold treeKeys. apply list_elem_of_In, in_flat_map.
  exists c. split; [by apply list_elem_of_In|]. right.
  unfold mutualKeys. rewrite Hms. by apply in_map, list_elem_of_In.
Qed.

(** X8: the mutual connections are drawn in the tree view only.  In 'tree'
    mode a circle and a label are drawn for every mutual connection of every
    connection; in every other view mode, when no `${id}-${mutualId}` key is
    also the id of a connection, no mutual node and no mutual edge is drawn
    (and a click can then select no mutual connection). *)
Theorem mutuals_drawn_in_tree_only p st rnd :
  let sc := (render p st rnd).1 in
  (viewMode p = "tree" →
   mutualNodes (connections p) (nodePositions sc)
   = allMutualNodes (connections p))
  ∧ (viewMode p ≠ "tree" → mutualKeysApart (connections p) →
     mutualNodes (connections p) (nodePositions sc) = []
     ∧ mutualLines (connections p) (nodePositions sc) = []).
Proof.
  intros sc. subst sc. rewrite render_fst. cbn [nodePositions].
  set (conns := connections p). split.
  - intros ->. unfold mutualNodes, allMutualNodes.
    apply flat_map_ext_elem. intros c Hc.
    destruct (Connection.mutualConnections c) as [mutuals|] eqn:Hms; [|done].
    apply flat_map_ext_elem. intros mutual Hm.
    assert (is_Some ((calculateNodePositions "tree" conns rnd).1
                       !! mutualKey c mutual)) as [pos ->]; [|done].
    rewrite tree_is_writes, applyWrites_lookup_is_Some, treeWrites_keys.
    left. by apply (mutualKey_in_treeKeys conns c mutuals).
  - intros Hmode Hapart.
    assert (Ht : String.eqb (viewMode p) "tree" = false)
      by (by apply String.eqb_neq).
    assert (Hnone : ∀ c mutuals mutual,
      c ∈ conns → Connection.mutualConnections c = Some mutuals →
      mutual ∈ mutuals →
      (calculateNodePositions (viewMode p) conns rnd).1
        !! mutualKey c mutual = None).
    { intros c mutuals mutual Hc Hms Hm. apply eq_None_not_Some. intros Hsome.
      destruct (flat_layout_keys _ _ _ _ Ht Hsome) as [Hk|Hk].
      - by apply mutualKey_not_user in Hk.
      - apply (Hapart c (mutualKey c mutual)); [done| |done].
        unfold mutualKeys. rewrite Hms.
        by apply list_elem_of_In, in_map, list_elem_of_In. }
    split.
    + unfold mutualNodes. apply flat_map_nil. intros c Hc.
      destruct (Connection.mutualConnections c) as [mutuals|] eqn:Hms; [|done].
      apply flat_map_nil. intros mutual Hm.
      by rewrite (Hnone c mutuals mutual).
    + unfold mutualLines. apply flat_map_nil. intros c Hc.
      destruct (Connection.mutualConnections c) as [mutuals|] eqn:Hms; [|done].
      apply omap_nil. intros mutual Hm.
      rewrite (Hnone c mutuals mutual) by done.
      by destruct (_ !! Connection.id c).
Qed.

Lemma mutuals_drawn_in_tree_only_witness :
  mutualNodes [conn_b; conn_a]
    (nodePositions (render sample_props initialState draws_zero).1)
  = [ MutualCircle conn_b mutual_m1; MutualText conn_b mutual_m1;
      MutualCircle conn_b mutual_m2; MutualText conn_b mutual_m2 ]
  ∧ mutualNodes [conn_b; conn_a]
      (nodePositions
         (render (mkProps [conn_b; conn_a] "circular") initialState
            draws_zero).1)
    = [].
Proof.
  split.
  - by apply (mutuals_drawn_in_tree_only sample_props initialState draws_zero).
  - apply (mutuals_drawn_in_tree_only (mkProps [conn_b; conn_a] "circular")
             initialState draws_zero); [discriminate|].
    intros c k Hc Hk.
    apply elem_of_cons in Hc as [->|Hc];
      [|apply list_elem_of_singleton in Hc as ->; by apply elem_of_nil in Hk].
    apply (bool_decide_unpack _).
    repeat (apply elem_of_cons in Hk as [->|Hk]; [by vm_compute|]).
    by apply elem_of_nil in Hk.
Defined.

(** X9: when the pointer enters the circle of a connection, the next render
    draws the edges of exactly the connections with that id in '#0A66C2',
    3 wide, and all others in '#E4E6EA', 2 wide; when it leaves the circle
    every edge is drawn in '#E4E6EA', 2 wide.  Neither calls a callback, and
    no other element (label, strength indicator, mutual node) reacts to the
    pointer. *)
Theorem hover_highlights w c rnd :
  let conns := connections (props w) in
  let entered := mouseEnterOn (ConnectionCircle c) w in
  let left := mouseLeaveOn (ConnectionCircle c) w in
  (∃ edges rest,
     lines (render (props w) (ui entered) rnd).1 = (edges ++ rest)%list
     ∧ Forall2 (λ c' line,
         if String.eqb (Connection.id c) (Connection.id c')
         then stroke line = "#0A66C2" ∧ strokeWidth line = 3
         else stroke line = "#E4E6EA" ∧ strokeWidth line = 2) conns edges)
  ∧ (∃ edges rest,
       lines (render (props w) (ui left) rnd).1 = (edges ++ rest)%list
       ∧ Forall2 (λ _ line, stroke line = "#E4E6EA" ∧ strokeWidth line = 2)
           conns edges)
  ∧ emitted entered = emitted w ∧ emitted left = emitted w
  ∧ (∀ el, (∀ c', el ≠ ConnectionCircle c') →
       mouseEnterOn el w = w ∧ mouseLeaveOn el w = w).
Proof.
  intros conns entered left. subst conns entered left.
  split; [|split; [|split; [|split]]]; try reflexivity.
  - rewrite render_fst. cbn [lines]. eexists _, _. split; [reflexivity|].
    eapply Forall2_impl.
    + apply connectionLines_all; [apply positions_has_user|].
      intros c' Hc'. by apply positions_has_ids.
    + intros c' line (userPos & pos & _ & _ & ->). cbn.
      by destruct (String.eqb (Connection.id c) (Connection.id c')).
  - rewrite render_fst. cbn [lines]. eexists _, _. split; [reflexivity|].
    eapply Forall2_impl.
    + apply connectionLines_all; [apply positions_has_user|].
      intros c' Hc'. by apply positions_has_ids.
    + by intros c' line (userPos & pos & _ & _ & ->).
  - intros el Hel. destruct el; try done. by destruct (Hel connection).
Qed.

Lemma hover_highlights_witness :
  mouseEnterOn (ConnectionText conn_a) (mount sample_props draws_zero)
  = mount sample_props draws_zero.
Proof.
  apply (hover_highlights (mount sample_props draws_zero) conn_a draws_zero).
  discriminate.
Defined.

(** ** Where the nodes are *)

Lemma applyWrites_lookup_inv {V : Type} (ws : list (string * V)) :
  ∀ (m : gmap string V) k v,
    applyWrites ws m !! k = Some v → (k, v) ∈ ws ∨ m !! k = Some v.
Proof.
  induction ws as [|[k' v'] ws IH]; intros m k v Hk; [by right|].
  rewrite applyWrites_cons in Hk. apply IH in Hk as [Hin|Hm].
  - left. by apply list_elem_of_further.
  - rewrite lookup_insert in Hm. case_decide as Hkk.
    + injection Hm as ->. subst k'. left. apply list_elem_of_here.
    + by right.
Qed.

Lemma elem_of_concat_imap_inv {A B : Type} (w : nat → A → list B)
    (l : list A) x :
  x ∈ concat (imap w l) → ∃ i a, l !! i = Some a ∧ x ∈ w i a.
Proof.
  intros Hx. apply list_elem_of_In, in_concat in Hx as (ys & Hys & Hx).
  apply list_elem_of_In, elem_of_lookup_imap_1 in Hys as (i & a & -> & Hl).
  exists i, a. split; [done | by apply list_elem_of_In].
Qed.

Lemma distance2_onCircle angle radius :
  distance2 (onCircle angle radius) = radius * radius.
Proof.
  unfold distance2, onCircle. cbn.
  pose proof (sin2_cos2 angle) as H. unfold Rsqr in H.
  replace (400 + cos angle * radius - 400) with (cos angle * radius) by ring.
  replace (300 + sin angle * radius - 300) with (sin angle * radius) by ring.
  replace (cos angle * radius * (cos angle * radius)
           + sin angle * radius * (sin angle * radius))
    with ((sin angle * sin angle + cos angle * cos angle) * (radius * radius))
    by ring.
  rewrite H. ring.
Qed.

Lemma square_bound a b c :
  0 <= c → a * a + b * b <= c * c → - c <= a <= c.
Proof.
  intros Hc H. assert (Hb : 0 <= b * b) by nra.
  split.
  - destruct (Rle_dec (- c) a) as [|Hn]; [assumption|].
    apply Rnot_le_lt in Hn. assert (c * c < a * a) by nra. lra.
  - destruct (Rle_dec a c) as [|Hn]; [assumption|].
    apply Rnot_le_lt in Hn. assert (c * c < a * a) by nra. lra.
Qed.

Lemma forceWrites_values conns : ∀ rnd kv,
  drawsInUnit rnd → kv ∈ forceWrites rnd conns →
  ∃ angle u, 0 <= u < 1 ∧ kv.2 = onCircle angle (100 + u * 150).
Proof.
  induction conns as [|c conns IH]; intros rnd kv Hrnd Hkv.
  - by apply elem_of_nil in Hkv.
  - cbn [forceWrites] in Hkv. apply elem_of_cons in Hkv as [->|Hkv].
    + exists (rnd 0%nat * 2 * PI), (rnd 1%nat). split; [apply Hrnd | done].
    + apply (IH (λ k, rnd (S (S k)))); [|done]. intros k. apply Hrnd.
Qed.

Lemma treeWrites_values n i c kv :
  kv ∈ treeWrites n i c →
  ∃ angle, kv.2 = onCircle angle 150 ∨ kv.2 = onCircle angle 250.
Proof.
  unfold treeWrites, mutualWrites. intros Hkv.
  apply elem_of_cons in Hkv as [->|Hkv]; [by eexists; left|].
  destruct (Connection.mutualConnections c) as [mutuals|];
    [|by apply elem_of_nil in Hkv].
  apply elem_of_concat_imap_inv in Hkv as (j & mutual & _ & Hkv).
  apply list_elem_of_singleton in Hkv as ->. by eexists; right.
Qed.

Lemma userOnly_lookup k pos :
  userOnly !! k = Some pos → pos = Point.mk 400 300.
Proof.
  unfold userOnly. rewrite lookup_insert. case_decide; [|by rewrite lookup_empty].
  by intros [= <-].
Qed.

(** X10: every node of the layout other than the center lies on a circle
    around (400, 300): of radius 150 (connections) or 250 (mutual
    connections) in 'tree' mode, of radius 200 in 'circular' mode, and, with
    draws in [0, 1), at a distance of at least 100 and less than 250 in the
    force-directed mode; so in every mode all nodes have
    150 <= x <= 650 and 50 <= y <= 550.  This holds for every key of the map,
    also when ids repeat. *)
Theorem nodes_on_rings viewMode conns rnd k pos :
  (isForceMode viewMode = true → drawsInUnit rnd) →
  (calculateNodePositions viewMode conns rnd).1 !! k = Some pos →
  (pos = Point.mk 400 300
   ∨ (if String.eqb viewMode "tree"
      then distance2 pos = 150 * 150 ∨ distance2 pos = 250 * 250
      else if String.eqb viewMode "circular"
      then distance2 pos = 200 * 200
      else 100 * 100 <= distance2 pos < 250 * 250))
  ∧ 150 <= Point.x pos <= 650 ∧ 50 <= Point.y pos <= 550.
Proof.
  intros Hrnd Hpos.
  assert (Hring : pos = Point.mk 400 300
    ∨ (if String.eqb viewMode "tree"
       then distance2 pos = 150 * 150 ∨ distance2 pos = 250 * 250
       else if String.eqb viewMode "circular"
       then distance2 pos = 200 * 200
       else 100 * 100 <= distance2 pos < 250 * 250)).
  { destruct (String.eqb viewMode "tree") eqn:Ht;
      [|destruct (String.eqb viewMode "circular") eqn:Hc].
    - apply String.eqb_eq in Ht as ->. rewrite tree_is_writes in Hpos.
      apply applyWrites_lookup_inv in Hpos as [Hin|Hu];
        [|left; by apply (userOnly_lookup k)].
      apply elem_of_concat_imap_inv in Hin as (i & c & _ & Hin).
      apply treeWrites_values in Hin as (angle & [Hv|Hv]); cbn in Hv;
        rewrite Hv, distance2_onCircle; right; [by left | by right].
    - apply String.eqb_eq in Hc as ->. rewrite circular_is_writes in Hpos.
      apply applyWrites_lookup_inv in Hpos as [Hin|Hu];
        [|left; by apply (userOnly_lookup k)].
      apply elem_of_concat_imap_inv in Hin as (i & c & _ & Hin).
      apply list_elem_of_singleton in Hin as [= _ ->].
      right. apply distance2_onCircle.
    - rewrite calculateNodePositions_force in Hpos
        by (unfold isForceMode; by rewrite Ht, Hc).
      unfold forEach in Hpos. rewrite force_is_writes in Hpos.
      apply applyWrites_lookup_inv in Hpos as [Hin|Hu];
        [|left; by apply (userOnly_lookup k)].
      apply forceWrites_values in Hin as (angle & u & Hu & Hv);
        [|apply Hrnd; unfold isForceMode; by rewrite Ht, Hc].
      cbn in Hv. rewrite Hv, distance2_onCircle. right.
      assert (Hr : 100 <= 100 + u * 150 < 250) by lra.
      set (r := 100 + u * 150) in *. destruct Hr as [Hr1 Hr2]. split.
      + apply Rmult_le_compat; lra.
      + apply Rmult_le_0_lt_compat; lra. }
  split; [exact Hring|].
  assert (Hd : distance2 pos <= 250 * 250).
  { destruct Hring as [->|Hring]; [unfold distance2; cbn; lra|].
    destruct (String.eqb viewMode "tree");
      [|destruct (String.eqb viewMode "circular")]; [destruct Hring| |]; lra. }
  unfold distance2 in Hd.
  pose proof (square_bound _ _ 250 ltac:(lra) Hd) as Hx.
  rewrite Rplus_comm in Hd.
  pose proof (square_bound _ _ 250 ltac:(lra) Hd) as Hy.
  split; lra.
Qed.

Lemma nodes_on_rings_witness :
  let pos := onCircle (angleOf 0 1) 150 in
  150 <= Point.x pos <= 650 ∧ 50 <= Point.y pos <= 550.
Proof.
  intros pos. apply (nodes_on_rings "tree" [conn_a] draws_zero "a" pos).
  - intros Hforce. vm_compute in Hforce. discriminate.
  - rewrite tree_is_writes.
    exact (applyWrites_lookup_last [] [] userOnly "a" pos (not_elem_of_nil _)).
Defined.

(** ** What the component emits *)

Lemma step_emitted op w :
  emitted (step op w) = (emitted w ++ opEffects op)%list.
Proof.
  destruct op; cbn [step opEffects]; rewrite ?app_nil_r; try reflexivity.
  by destruct_render.
Qed.

(** X11: the callbacks are called once per click, in click order: what the
    component has emitted after a sequence of operations is what it had
    emitted before followed by onNodeSelect(node) for every node click,
    onViewModeChange(value) for every view-mode click and the console line
    for every Export click; an operation that emits leaves the local state,
    the props, the scene and the random source as they were (a view-mode
    click does not itself switch the layout). *)
Theorem emits_in_order ops w :
  emitted (run ops w) = (emitted w ++ flat_map opEffects ops)%list
  ∧ ∀ op, opEffects op ≠ [] →
      ui (step op w) = ui w ∧ props (step op w) = props w
      ∧ scene (step op w) = scene w ∧ random (step op w) = random w.
Proof.
  split.
  - revert w. induction ops as [|op ops IH]; intros w.
    + cbn. by rewrite app_nil_r.
    + rewrite run_cons, IH, step_emitted. cbn [flat_map].
      by rewrite app_assoc.
  - intros op Hop. by destruct op.
Qed.

Lemma emits_in_order_witness :
  let w := step (ViewModeChange "circular") (mount sample_props draws_zero) in
  ui w = initialState ∧ props w = sample_props.
Proof.
  intros w.
  destruct (emits_in_order [] (mount sample_props draws_zero)) as [_ Hframe].
  destruct (Hframe (ViewModeChange "circular")) as (Hui & Hprops & _);
    [discriminate|].
  subst w. rewrite Hui, Hprops, mount_ui, mount_props. by split.
Defined.

(** ** Labels *)

Example firstName_samples :
  firstName "Ann Lee" = Some "Ann" ∧ firstName "Cher" = Some "Cher"
  ∧ firstName " Ann" = Some "" ∧ firstName "" = Some ""
  ∧ split Ascii.Space "a  b " = ["a"; ""; "b"; ""].
Proof. by repeat split. Qed.

(** [split] returns the piece before the first separator, then the pieces
    of what follows it. *)
Lemma split_first separator s :
  ∃ piece pieces,
    split separator s = piece :: pieces
    ∧ freeOf separator piece
    ∧ ((s = piece ∧ pieces = [])
       ∨ ∃ rest, s = piece ++ String separator rest
                 ∧ pieces = split separator rest).
Proof.
  induction s as [|c s (piece & pieces & Hs & Hfree & Hshape)].
  - exists "", []. split; [done|]. split; [constructor | by left].
  - cbn [split]. destruct (Ascii.eqb c separator) eqn:Hc.
    + apply Ascii.eqb_eq in Hc as ->. exists "", (split separator s).
      split; [done|]. split; [constructor|]. right. by exists s.
    + apply Ascii.eqb_neq in Hc. rewrite Hs.
      exists (String c piece), pieces. split; [done|].
      split; [by constructor|].
      destruct Hshape as [[-> ->]|(rest & -> & ->)]; [by left|].
      right. by exists rest.
Qed.

(** X12: the label under a node, name.split(' ')[0], always exists; it has
    no space, and the name is the label alone or the label, a space and a
    rest.  So an empty name and a name that starts with a space give the
    empty label. *)
Theorem label_is_first_word name :
  ∃ label,
    firstName name = Some label
    ∧ freeOf Ascii.Space label
    ∧ (name = label ∨ ∃ rest, name = label ++ String Ascii.Space rest)
    ∧ (∀ c, connectionLabel c = firstName (Connection.name c))
    ∧ (∀ m, mutualLabel m = firstName (Mutual.name m)).
Proof.
  destruct (split_first Ascii.Space name)
    as (piece & pieces & Hs & Hfree & Hshape).
  exists piece. unfold firstName. rewrite Hs.
  split; [done|]. split; [done|]. split; [|done].
  destruct Hshape as [[-> _]|(rest & -> & _)]; [by left|]. right. by exists rest.
Qed.

(** ** View-mode buttons *)

Lemma selectedModes_cases vm :
  (vm = "tree" ∧ selectedModes vm = ["tree"])
  ∨ (vm = "force" ∧ selectedModes vm = ["force"])
  ∨ (vm = "circular" ∧ selectedModes vm = ["circular"])
  ∨ ((vm ≠ "tree" ∧ vm ≠ "force" ∧ vm ≠ "circular") ∧ selectedModes vm = []).
Proof.
  unfold selectedModes, viewModes, viewModeVariant.
  rewrite !filter_cons, filter_nil. cbn [fst snd].
  destruct (String.eqb vm "tree") eqn:Ht.
  { apply String.eqb_eq in Ht as ->. left. split; [done|].
    repeat (case_decide; try done). }
  destruct (String.eqb vm "force") eqn:Hf.
  { apply String.eqb_eq in Hf as ->. right. left. split; [done|].
    repeat (case_decide; try done). }
  destruct (String.eqb vm "circular") eqn:Hc.
  { apply String.eqb_eq in Hc as ->. right. right. left. split; [done|].
    repeat (case_decide; try done). }
  right. right. right. apply String.eqb_neq in Ht, Hf, Hc.
  split; [done|]. repeat (case_decide; try done).
Qed.

(** X13: the selected view-mode button names the branch of the layout in
    use: for 'tree', 'force' and 'circular' exactly that button is drawn
    selected; for any other view mode no button is selected and the layout
    is the force-directed one. *)
Theorem selected_mode_is_layout vm :
  (length (selectedModes vm) ≤ 1)%nat
  ∧ (∀ value, value ∈ selectedModes vm
              ↔ value = vm ∧ value ∈ ["tree"; "force"; "circular"])
  ∧ (selectedModes vm = [] → isForceMode vm = true)
  ∧ (selectedModes vm = ["force"] → isForceMode vm = true).
Proof.
  destruct (selectedModes_cases vm)
    as [[-> ->]|[[-> ->]|[[-> ->]|[(Ht & Hf & Hc) ->]]]].
  1-3: split; [cbn; lia|]; split; [|split; intros; done];
    intros value; rewrite !elem_of_cons, elem_of_nil;
    (split; [intros [->|[]]; split; [done|]; tauto | intros [-> _]; by left]).
  split; [cbn; lia|]. split; [|split; [|done]].
  - intros value. rewrite !elem_of_cons, !elem_of_nil.
    split; [done|]. intros [-> [?|[?|[?|[]]]]]; done.
  - intros _. unfold isForceMode.
    apply String.eqb_neq in Ht, Hc. by rewrite Ht, Hc.
Qed.

Lemma selected_mode_is_layout_witness :
  isForceMode "grid" = true ∧ "tree" ∈ selectedModes "tree".
Proof.
  split.
  - destruct (selected_mode_is_layout "grid") as (_ & _ & Hnone & _).
    apply Hnone. by vm_compute.
  - destruct (selected_mode_is_layout "tree") as (_ & Hin & _).
    apply Hin. split; [done|]. apply list_elem_of_here.
Defined.

(** * Properties of the page header *)

Section HeaderSearch.
Variable isWhiteSpace : N → bool.
Variable encodeURIComponent : Header.JsString → option Header.JsString.

Lemma trimStart_all_white s :
  forallb isWhiteSpace s = true → Header.trimStart isWhiteSpace s = [].
Proof.
  induction s as [|u s IH]; [done|]. cbn. intros Hs.
  apply andb_prop in Hs as [-> Hs]. by apply IH.
Qed.

(** What [trimStart] leaves is empty or starts with a code unit that is not
    white space, and it is a suffix of the string. *)
Lemma trimStart_shape s :
  Header.trimStart isWhiteSpace s = []
  ∨ ∃ u rest, Header.trimStart isWhiteSpace s = u :: rest
              ∧ isWhiteSpace u = false.
Proof.
  induction s as [|u s IH]; [by left|]. cbn.
  destruct (isWhiteSpace u) eqn:Hu; [exact IH|]. right. by exists u, s.
Qed.

Lemma forallb_rev (s : list N) :
  forallb isWhiteSpace (rev s) = forallb isWhiteSpace s.
Proof.
  induction s as [|u s IH]; [done|]. cbn.
  rewrite forallb_app, IH. cbn. rewrite andb_true_r. apply andb_comm.
Qed.

(** [trim] leaves nothing exactly when every code unit is white space. *)
Lemma trim_truthy s :
  Header.truthy (Header.trim isWhiteSpace s) = negb (forallb isWhiteSpace s).
Proof.
  destruct (forallb isWhiteSpace s) eqn:Hall.
  - unfold Header.trim, Header.trimEnd.
    by rewrite (trimStart_all_white s Hall).
  - unfold Header.trim, Header.trimEnd.
    destruct (trimStart_shape s) as [Hnil|(u & rest & Hs & Hu)].
    { rewrite <- Hall. symmetry. clear Hall.
      induction s as [|v s IH]; [done|]. cbn in Hnil |- *.
      destruct (isWhiteSpace v); [by apply IH | done]. }
    rewrite Hs.
    destruct (trimStart_shape (rev (u :: rest)))
      as [Hnil|(v & rest' & Hr & Hv)].
    + assert (Hwhite : forallb isWhiteSpace (rev (u :: rest)) = true).
      { clear -Hnil. induction (rev (u :: rest)) as [|v l IH]; [done|].
        cbn in Hnil |- *. destruct (isWhiteSpace v); [by apply IH | done]. }
      rewrite forallb_rev in Hwhite. cbn in Hwhite. by rewrite Hu in Hwhite.
    + rewrite Hr. cbn [rev].
      by destruct (rev rest').
Qed.

(** X14: submitting the search always calls preventDefault first; a query
    that is empty or all white space does nothing more; any other query sets
    location.href to '/search-results?q=' followed by the encoding of the
    query as typed, leading and trailing white space included, or throws
    when the encoding throws. *)
Theorem search_submits st :
  let query := Header.searchQuery st in
  let submit := Header.handleSearch isWhiteSpace encodeURIComponent st in
  head submit = Some Header.preventDefault
  ∧ (forallb isWhiteSpace query = true → submit = [Header.preventDefault])
  ∧ (forallb isWhiteSpace query = false →
     submit
     = [ Header.preventDefault;
         match encodeURIComponent query with
         | Some encoded =>
             Header.setLocationHref
               (Header.ofString "/search-results?q=" ++ encoded)%list
         | None => Header.throwURIError
         end ]).
Proof.
  intros query submit. subst query submit. unfold Header.handleSearch.
  rewrite trim_truthy. split; [done|].
  split; intros ->; cbn [negb]; [done|].
  by destruct (encodeURIComponent (Header.searchQuery st)).
Qed.
End HeaderSearch.

Lemma search_submits_witness :
  Header.handleSearch sampleWhiteSpace sampleEncode
    (Header.mkState (Header.ofString "  ") false false)
  = [Header.preventDefault]
  ∧ Header.handleSearch sampleWhiteSpace sampleEncode
      (Header.mkState (Header.ofString " a") false false)
    = [ Header.preventDefault;
        Header.setLocationHref (Header.ofString "/search-results?q=%20a") ].
Proof.
  split.
  - by apply (search_submits sampleWhiteSpace sampleEncode
             (Header.mkState (Header.ofString "  ") false false)).
  - by apply (search_submits sampleWhiteSpace sampleEncode
             (Header.mkState (Header.ofString " a") false false)).
Defined.

(** ** Menus and navigation *)

Lemma toggleProfileMenu_iter n st :
  Nat.iter n Header.toggleProfileMenu st
  = Header.mkState (Header.searchQuery st)
      (xorb (Nat.odd n) (Header.showProfileMenu st))
      (Header.showMobileMenu st).
Proof.
  induction n as [|n IH]; [by destruct st|].
  rewrite Nat.iter_succ, IH, Nat.odd_succ, <- Nat.negb_odd.
  unfold Header.toggleProfileMenu. cbn. f_equal.
  by destruct (Nat.odd n), (Header.showProfileMenu st).
Qed.

Lemma toggleMobileMenu_iter n st :
  Nat.iter n Header.toggleMobileMenu st
  = Header.mkState (Header.searchQuery st) (Header.showProfileMenu st)
      (xorb (Nat.odd n) (Header.showMobileMenu st)).
Proof.
  induction n as [|n IH]; [by destruct st|].
  rewrite Nat.iter_succ, IH, Nat.odd_succ, <- Nat.negb_odd.
  unfold Header.toggleMobileMenu. cbn. f_equal.
  by destruct (Nat.odd n), (Header.showMobileMenu st).
Qed.

(** X15: after n clicks on a menu button, that menu is open exactly when n
    is odd (starting closed), and the other menu and the search text are as
    they were; the two buttons commute; a click on a link of the mobile menu
    closes the mobile menu and leaves the profile menu as it is; typing in
    the search box changes neither menu. *)
Theorem menus_toggle n st :
  Nat.iter n Header.toggleProfileMenu st
  = Header.mkState (Header.searchQuery st)
      (xorb (Nat.odd n) (Header.showProfileMenu st))
      (Header.showMobileMenu st)
  ∧ Nat.iter n Header.toggleMobileMenu st
    = Header.mkState (Header.searchQuery st) (Header.showProfileMenu st)
        (xorb (Nat.odd n) (Header.showMobileMenu st))
  ∧ Header.showProfileMenu (Nat.iter n Header.toggleProfileMenu
                              Header.initialState) = Nat.odd n
  ∧ Header.toggleProfileMenu (Header.toggleMobileMenu st)
    = Header.toggleMobileMenu (Header.toggleProfileMenu st)
  ∧ Header.mobileLinkClick st
    = Header.mkState (Header.searchQuery st) (Header.showProfileMenu st) false
  ∧ ∀ value,
      Header.showProfileMenu (Header.handleSearchChange value st)
      = Header.showProfileMenu st
      ∧ Header.showMobileMenu (Header.handleSearchChange value st)
        = Header.showMobileMenu st.
Proof.
  split; [apply toggleProfileMenu_iter|].
  split; [apply toggleMobileMenu_iter|].
  split; [rewrite toggleProfileMenu_iter; cbn; apply xorb_false_r|].
  by repeat split.
Qed.

Lemma filter_key_length {A : Type} (key : A → string) (l : list A) x :
  NoDup (map key l) →
  (length (filter (λ a, String.eqb x (key a) = true) l) ≤ 1)%nat.
Proof.
  induction l as [|a l IH]; intros Hnd; [cbn; lia|].
  cbn [map] in Hnd. apply NoDup_cons in Hnd as [Hnotin Hnd].
  rewrite filter_cons. case_decide as Ha; [|by apply IH].
  apply String.eqb_eq in Ha as ->.
  destruct (filter _ l) as [|b bs] eqn:Hf; [cbn; lia|]. exfalso.
  assert (Hb : b ∈ filter (λ a0, String.eqb (key a) (key a0) = true) l)
    by (rewrite Hf; apply list_elem_of_here).
  apply list_elem_of_filter in Hb as [Hkey Hb].
  apply String.eqb_eq in Hkey. apply Hnotin. rewrite Hkey.
  by apply list_elem_of_In, in_map, list_elem_of_In.
Qed.

(** X16: for every pathname at most one navigation item is drawn active,
    and an item is active exactly when its path is the pathname, character
    for character. *)
Theorem one_active_item pathname :
  (length (Header.activeItems pathname) ≤ 1)%nat
  ∧ ∀ item,
      item ∈ Header.activeItems pathname
      ↔ item ∈ Header.navigationItems ∧ item.1.2 = pathname.
Proof.
  split.
  - apply (filter_key_length (λ item, item.1.2)).
    apply (bool_decide_unpack _). by vm_compute.
  - intros item. unfold Header.activeItems.
    rewrite list_elem_of_filter. unfold Header.isActivePath.
    rewrite String.eqb_eq. split; intros [? ?]; by split.
Qed.

Lemma one_active_item_witness :
  ("Network", "/connection-network-tree", "Users")
  ∈ Header.activeItems "/connection-network-tree".
Proof.
  apply (one_active_item "/connection-network-tree"). split; [|done].
  do 2 apply list_elem_of_further. apply list_elem_of_here.
Defined.

(** ** Distinct connections, distinct places *)

Lemma cos_sin_inj a b :
  0 <= a < 2 * PI → 0 <= b < 2 * PI →
  cos a = cos b → sin a = sin b → a = b.
Proof.
  intros [Ha0 Ha2] [Hb0 Hb2] Hcos Hsin.
  destruct (Rle_dec a PI) as [Ha|Ha], (Rle_dec b PI) as [Hb|Hb].
  - destruct (Rtotal_order a b) as [Hlt|[Heq|Hgt]]; [|done|].
    + pose proof (cos_decreasing_1 a b Ha0 Ha Hb0 Hb Hlt). lra.
    + pose proof (cos_decreasing_1 b a Hb0 Hb Ha0 Ha Hgt). lra.
  - apply Rnot_le_lt in Hb.
    pose proof (sin_ge_0 a Ha0 Ha). pose proof (sin_lt_0 b Hb Hb2). lra.
  - apply Rnot_le_lt in Ha.
    pose proof (sin_ge_0 b Hb0 Hb). pose proof (sin_lt_0 a Ha Ha2). lra.
  - apply Rnot_le_lt in Ha, Hb.
    destruct (Rtotal_order a b) as [Hlt|[Heq|Hgt]]; [|done|].
    + pose proof (cos_increasing_1 a b ltac:(lra) ltac:(lra) ltac:(lra)
                    ltac:(lra) Hlt). lra.
    + pose proof (cos_increasing_1 b a ltac:(lra) ltac:(lra) ltac:(lra)
                    ltac:(lra) Hgt). lra.
Qed.

Lemma angleOf_range i n : (i < n)%nat → 0 <= angleOf i n < 2 * PI.
Proof.
  intros Hi. unfold angleOf.
  assert (Hn : 0 < INR n) by (apply lt_0_INR; lia).
  assert (Hi0 : 0 <= INR i) by apply pos_INR.
  assert (Hin : INR i < INR n) by (by apply lt_INR).
  pose proof PI_RGT_0 as Hpi.
  assert (Hinv : 0 < / INR n) by (by apply Rinv_0_lt_compat).
  assert (Hq : 0 <= INR i / INR n < 1).
  { unfold Rdiv. split; [by apply Rmult_le_pos; [|left]|].
    rewrite <- (Rinv_r (INR n)) by lra.
    by apply Rmult_lt_compat_r. }
  replace (2 * PI * INR i / INR n) with (2 * PI * (INR i / INR n))
    by (unfold Rdiv; ring).
  split; nra.
Qed.

Lemma angleOf_inj i j n :
  (i < n)%nat → angleOf i n = angleOf j n → i = j.
Proof.
  intros Hi Heq. unfold angleOf in Heq.
  assert (Hn : 0 < INR n) by (apply lt_0_INR; lia).
  pose proof PI_RGT_0 as Hpi. apply INR_eq.
  apply (Rmult_eq_reg_l (2 * PI * / INR n)).
  - unfold Rdiv in Heq. lra.
  - apply Rmult_integral_contrapositive_currified; [lra|].
    apply Rinv_neq_0_compat. lra.
Qed.

Lemma onCircle_inj a b radius :
  0 < radius → 0 <= a < 2 * PI → 0 <= b < 2 * PI →
  onCircle a radius = onCircle b radius → a = b.
Proof.
  intros Hr Ha Hb [= Hx Hy]. apply cos_sin_inj; [done|done| |].
  - apply (Rmult_eq_reg_r radius); lra.
  - apply (Rmult_eq_reg_r radius); lra.
Qed.

(** X17: in the 'tree' and 'circular' views two different entries of the
    connections list are never drawn at the same place, provided the keys
    written by the loop are pairwise distinct. *)
Theorem connections_apart conns rnd i j ci cj :
  conns !! i = Some ci → conns !! j = Some cj → i ≠ j →
  (NoDup (treeKeys conns) →
   (calculateNodePositions "tree" conns rnd).1 !! Connection.id ci
   ≠ (calculateNodePositions "tree" conns rnd).1 !! Connection.id cj)
  ∧ (NoDup (map Connection.id conns) →
     (calculateNodePositions "circular" conns rnd).1 !! Connection.id ci
     ≠ (calculateNodePositions "circular" conns rnd).1 !! Connection.id cj).
Proof.
  intros Hi Hj Hij.
  assert (Hin : (i < length conns)%nat) by (by eapply lookup_lt_Some).
  assert (Hjn : (j < length conns)%nat) by (by eapply lookup_lt_Some).
  split; intros Hnd.
  - rewrite tree_is_writes.
    rewrite (applyWrites_lookup_in _ _ (Connection.id ci)
               (onCircle (angleOf i (length conns)) 150));
      [|by rewrite treeWrites_keys
       |apply (elem_of_concat_imap _ _ i ci); [done|apply list_elem_of_here]].
    rewrite (applyWrites_lookup_in _ _ (Connection.id cj)
               (onCircle (angleOf j (length conns)) 150));
      [|by rewrite treeWrites_keys
       |apply (elem_of_concat_imap _ _ j cj); [done|apply list_elem_of_here]].
    intros [= Heq]. apply Hij, (angleOf_inj i j (length conns)); [done|].
    apply (onCircle_inj _ _ 150); [lra|by apply angleOf_range..|].
    unfold onCircle. by f_equal.
  - rewrite circular_is_writes.
    rewrite (applyWrites_lookup_in _ _ (Connection.id ci)
               (onCircle (angleOf i (length conns)) 200));
      [|by rewrite circularWrites_keys
       |apply (elem_of_concat_imap _ _ i ci); [done|apply list_elem_of_here]].
    rewrite (applyWrites_lookup_in _ _ (Connection.id cj)
               (onCircle (angleOf j (length conns)) 200));
      [|by rewrite circularWrites_keys
       |apply (elem_of_concat_imap _ _ j cj); [done|apply list_elem_of_here]].
    intros [= Heq]. apply Hij, (angleOf_inj i j (length conns)); [done|].
    apply (onCircle_inj _ _ 200); [lra|by apply angleOf_range..|].
    unfold onCircle. by f_equal.
Qed.

Lemma connections_apart_witness :
  (calculateNodePositions "circular" [conn_b; conn_a] draws_zero).1 !! "b"
  ≠ (calculateNodePositions "circular" [conn_b; conn_a] draws_zero).1 !! "a".
Proof.
  apply (connections_apart [conn_b; conn_a] draws_zero 0 1 conn_b conn_a);
    [reflexivity | reflexivity | lia |].
  apply (bool_decide_unpack _). by vm_compute.
Defined.
